(** * drand-pulse-conduit: a shallow embedding of [src/ocw.py]

    The off-chain worker pulls drand pulses over HTTP, encodes them into the
    payload that is signed, and submits them to the chain as an unsigned
    extrinsic.  Python integers are [Z]; Python [bytes] are [list byte];
    exceptions are the [Err] case of [Res]; the network, the chain, the clock
    and the signing key are an environment read by a small state monad. *)

From Stdlib Require Import ZArith List Lia Bool String Ascii.
From Stdlib Require Import Strings.Byte.
From Stdlib Require DecimalZ.
From Stdlib Require Import Sorting.Sorted.
Import ListNotations.
Open Scope Z_scope.
Set Warnings "-register-all".

(** ** Python exceptions and fallible results *)

Inductive Exc : Type :=
  | OverflowError            (* int.to_bytes: value does not fit *)
  | KeyError                 (* dict lookup of a missing key *)
  | TypeError                (* subscripting / arithmetic on a wrong type *)
  | ValueError               (* binascii.Error is a subclass of ValueError *)
  | AttributeError           (* e.g. str has no attribute to_bytes *)
  | Exception (msg : string)  (* raise Exception(msg) *)
  | SubstrateRequestException (msg : string).

Inductive Res (A : Type) : Type :=
  | Ok (a : A)
  | Err (e : Exc).
Arguments Ok {A} a.
Arguments Err {A} e.

Definition res_bind {A B} (m : Res A) (k : A -> Res B) : Res B :=
  match m with Ok a => k a | Err e => Err e end.

Notation "'let?' x ':=' m 'in' k" := (res_bind m (fun x => k))
  (at level 200, x name, m at level 100, k at level 200).

(** ** Bytes *)

Definition byte_of_Z (z : Z) : byte :=
  match Byte.of_N (Z.to_N (Z.land z 255)) with Some b => b | None => x00 end.

Definition Z_of_byte (b : byte) : Z := Z.of_N (Byte.to_N b).

(** [n] little-endian bytes of [v] (low byte first). *)
Fixpoint le_bytes (n : nat) (v : Z) : list byte :=
  match n with
  | O => []
  | S n' => byte_of_Z (Z.land v 255) :: le_bytes n' (Z.shiftr v 8)
  end.

(** The integer a little-endian byte string denotes. *)
Fixpoint le_value (bs : list byte) : Z :=
  match bs with
  | [] => 0
  | b :: bs' => Z_of_byte b + 256 * le_value bs'
  end.

(** [int.to_bytes(length, 'little')] (unsigned): raises [OverflowError] for
    a negative value or one that needs more than [length] bytes. *)
Definition int_to_bytes (v : Z) (length : nat) : Res (list byte) :=
  if (0 <=? v) && (v <? 2 ^ (8 * Z.of_nat length)) then Ok (le_bytes length v)
  else Err OverflowError.

(** ** encode_compact_u32 (lines 53-64) *)

Definition encode_compact_u32 (value : Z) : Res (list byte) :=
  if value <? 64 then int_to_bytes (Z.land (Z.shiftl value 2) 255) 1
  else if value <? 16384 then int_to_bytes (Z.lor (Z.shiftl value 2) 1) 2
  else if value <? 1073741824 then int_to_bytes (Z.lor (Z.shiftl value 2) 2) 4
  else int_to_bytes (Z.lor (Z.shiftl value 2) 3) 5.

(** ** Pulses and payloads

    A pulse is the dict built by [try_into_pulse]; its ["round"] is whatever
    value the beacon's JSON carried, so the record is parametric in the type
    of the round.  The encoder only needs the round's [to_bytes] method, a
    duck-typed interface rendered as a class. *)

Record Pulse (R : Type) : Type := mkPulse {
  round : R;
  randomness : list byte;
  signature : list byte
}.
Arguments mkPulse {R} round randomness signature.
Arguments round {R} p.
Arguments randomness {R} p.
Arguments signature {R} p.

Record PulsesPayload (R : Type) : Type := mkPayload {
  block_number : Z;
  pulses : list (Pulse R);
  public : list byte
}.
Arguments mkPayload {R} block_number pulses public.
Arguments block_number {R} p.
Arguments pulses {R} p.
Arguments public {R} p.

Class ToBytes (R : Type) := to_bytes : R -> nat -> Res (list byte).

#[export] Instance ToBytes_int : ToBytes Z := int_to_bytes.

(** The body of the loop of [encode_pulses_payload] (lines 79-84), run on the
    accumulator [encoded]. *)
Fixpoint encode_pulses_loop {R} `{ToBytes R} (ps : list (Pulse R))
    (encoded : list byte) : Res (list byte) :=
  match ps with
  | [] => Ok encoded
  | p :: ps' =>
      let? r := to_bytes (round p) 8 in
      let? c1 := encode_compact_u32 (Z.of_nat (List.length (randomness p))) in
      let? c2 := encode_compact_u32 (Z.of_nat (List.length (signature p))) in
      encode_pulses_loop ps'
        (encoded ++ r ++ c1 ++ randomness p ++ c2 ++ signature p)
  end.

(** [encode_pulses_payload] (lines 74-90); [b'\x01'] is the discriminant of
    [MultiSigner::Sr25519]. *)
Definition encode_pulses_payload {R} `{ToBytes R} (pl : PulsesPayload R)
    : Res (list byte) :=
  let? encoded := int_to_bytes (block_number pl) 4 in
  let? c := encode_compact_u32 (Z.of_nat (List.length (pulses pl))) in
  let? encoded := encode_pulses_loop (pulses pl) (encoded ++ c) in
  Ok (encoded ++ [x01] ++ public pl).

(** [encode_pulse] (lines 66-72); nothing in the source calls it. *)
Definition encode_pulse {R} `{ToBytes R} (pulse : Pulse R) : Res (list byte) :=
  let? encoded := to_bytes (round pulse) 8 in
  let? c1 := encode_compact_u32 (Z.of_nat (List.length (randomness pulse))) in
  let encoded := encoded ++ c1 in
  let encoded := encoded ++ randomness pulse in
  let? c2 := encode_compact_u32 (Z.of_nat (List.length (signature pulse))) in
  let encoded := encoded ++ c2 in
  Ok (encoded ++ signature pulse).

(** ** JSON values as [requests]' [response.json()] returns them

    Objects keep their key/value pairs in order; [json.loads] keeps the last
    binding of a duplicated key.  Non-integral JSON numbers (Python floats)
    are not modelled. *)

Inductive Json : Type :=
  | JNull
  | JBool (b : bool)
  | JInt (z : Z)
  | JStr (s : string)
  | JArr (items : list Json)
  | JObj (kvs : list (string * Json)).

Definition lookup_last (k : string) (kvs : list (string * Json)) : option Json :=
  fold_left (fun acc kv => if String.eqb k (fst kv) then Some (snd kv) else acc)
    kvs None.

(** [d[k]]: a [KeyError] on a dict without [k], a [TypeError] on anything
    that is not a dict. *)
Definition getitem (d : Json) (k : string) : Res Json :=
  match d with
  | JObj kvs => match lookup_last k kvs with Some v => Ok v | None => Err KeyError end
  | _ => Err TypeError
  end.

(** Python's [bool] is a subclass of [int]: [True - 1], [True <= 5] and
    [True.to_bytes(8, 'little')] all work; every other JSON value raises. *)
Definition py_int (j : Json) : Res Z :=
  match j with
  | JInt z => Ok z
  | JBool b => Ok (Z.b2z b)
  | _ => Err TypeError
  end.

#[export] Instance ToBytes_json : ToBytes Json := fun j n =>
  match j with
  | JInt z => int_to_bytes z n
  | JBool b => int_to_bytes (Z.b2z b) n
  | _ => Err AttributeError
  end.

(** ** binascii.unhexlify on a [str] *)

Definition hex_value (c : ascii) : option Z :=
  let n := Z.of_nat (nat_of_ascii c) in
  if (48 <=? n) && (n <=? 57) then Some (n - 48)
  else if (97 <=? n) && (n <=? 102) then Some (n - 87)
  else if (65 <=? n) && (n <=? 70) then Some (n - 55)
  else None.

(** An odd length and a non-hexadecimal digit both raise [binascii.Error]. *)
Fixpoint unhexlify_str (s : string) : Res (list byte) :=
  match s with
  | EmptyString => Ok []
  | String _ EmptyString => Err ValueError
  | String hi (String lo s') =>
      match hex_value hi, hex_value lo with
      | Some h, Some l =>
          let? rest := unhexlify_str s' in Ok (byte_of_Z (16 * h + l) :: rest)
      | _, _ => Err ValueError
      end
  end.

(** JSON has no [bytes]; a non-[str] argument is a [TypeError]. *)
Definition unhexlify (j : Json) : Res (list byte) :=
  match j with
  | JStr s => unhexlify_str s
  | _ => Err TypeError
  end.

(** ** try_into_pulse (lines 40-51) *)

Definition try_into_pulse (drand_resp : Json) : Res (Pulse Json) :=
  let? round_num := getitem drand_resp "round" in
  let? r := getitem drand_resp "randomness" in
  let? randomness := unhexlify r in
  let? s := getitem drand_resp "signature" in
  let? signature := unhexlify s in
  if negb (Nat.eqb (List.length randomness) 32)
  then Err (Exception "Randomness is not 32 bytes")
  else Ok (mkPulse round_num randomness signature).

(** ** bytes.hex() and str(int) *)

Definition hex_digit (n : Z) : ascii :=
  if n <? 10 then ascii_of_nat (Z.to_nat (48 + n)) else ascii_of_nat (Z.to_nat (87 + n)).

Fixpoint bytes_hex (bs : list byte) : string :=
  match bs with
  | [] => EmptyString
  | b :: bs' =>
      String (hex_digit (Z_of_byte b / 16)) (String (hex_digit (Z_of_byte b mod 16)) (bytes_hex bs'))
  end.

Fixpoint uint_to_string (d : Decimal.uint) : string :=
  match d with
  | Decimal.Nil => EmptyString
  | Decimal.D0 d' => String "0" (uint_to_string d')
  | Decimal.D1 d' => String "1" (uint_to_string d')
  | Decimal.D2 d' => String "2" (uint_to_string d')
  | Decimal.D3 d' => String "3" (uint_to_string d')
  | Decimal.D4 d' => String "4" (uint_to_string d')
  | Decimal.D5 d' => String "5" (uint_to_string d')
  | Decimal.D6 d' => String "6" (uint_to_string d')
  | Decimal.D7 d' => String "7" (uint_to_string d')
  | Decimal.D8 d' => String "8" (uint_to_string d')
  | Decimal.D9 d' => String "9" (uint_to_string d')
  end.

Definition py_str (z : Z) : string :=
  match Z.to_int z with
  | Decimal.Pos u => uint_to_string u
  | Decimal.Neg u => String "-" (uint_to_string u)
  end.

(** ** The world of a cycle: chain, beacon, clock, key

    The chain's storage is part of the state and changes only through an
    accepted extrinsic.  [env_http n uri] is the answer to the [n]-th HTTP
    request of the run, made to [uri]; a body [response.json()] cannot
    parse raises [requests.exceptions.JSONDecodeError], a [RequestException]
    since requests 2.27, and is therefore given as [HttpTransportError].
    [env_clock k] is the [k]-th reading of [time.time()], in milliseconds
    (float rounding is abstracted away).  Trace events not in the source
    ([EvFetchLatest], [EvFetchRound], [EvEncode]) are ghost markers placed at
    calls of [fetch_drand_latest], [fetch_drand_by_round] and
    [encode_pulses_payload]. *)

Record Chain : Type := mkChain {
  next_unsigned_at_value : option Z;
  last_stored_round_value : option Z
}.

Inductive StorageItem : Type := NextUnsignedAt | LastStoredRound.

Definition storage (c : Chain) (i : StorageItem) : option Z :=
  match i with
  | NextUnsignedAt => next_unsigned_at_value c
  | LastStoredRound => last_stored_round_value c
  end.

Inductive HttpResp : Type :=
  | HttpTransportError
  | HttpResponse (status_code : Z) (body : Json).

(** The [write_pulse] call: block number, pulses with hex-string fields, the
    [Sr25519] public key and signature as ["0x"]-prefixed hex. *)
Record Call : Type := mkCall {
  call_block_number : Z;
  call_pulses : list (Json * string * string);
  call_public : string;
  call_signature : string
}.

Record Receipt : Type := mkReceipt {
  is_success : bool;
  error_message : string
}.

Inductive Message : Type :=
  | MsgNoNewRounds
  | MsgNoNewPulses
  | MsgSubmitted (from upto : Z)
  | MsgFailed (err : string).

Inductive event : Type :=
  | EvQuery (item : StorageItem)
  | EvFetchLatest
  | EvFetchRound (r : Z)
  | EvHttpGet (uri : string)
  | EvEncode (payload : PulsesPayload Json)
  | EvSign (msg : list byte)
  | EvSubmit (call : Call)
  | EvPrint (m : Message).

Record Env : Type := mkEnv {
  env_http : nat -> string -> HttpResp;
  env_clock : nat -> Z;
  env_public : list byte;
  env_sign : list byte -> list byte;
  env_submit : Call -> Chain -> Res Receipt * Chain
}.

Record St : Type := mkSt {
  st_chain : Chain;
  st_requests : nat;
  st_clock_reads : nat;
  st_trace : list event
}.

Definition log (s : St) (ev : event) : St :=
  mkSt (st_chain s) (st_requests s) (st_clock_reads s) (st_trace s ++ [ev]).

(** ** A state and exception monad *)

Definition M (A : Type) : Type := St -> Res A * St.

Definition ret {A} (a : A) : M A := fun s => (Ok a, s).

Definition bind {A B} (m : M A) (k : A -> M B) : M B := fun s =>
  match m s with
  | (Ok a, s') => k a s'
  | (Err e, s') => (Err e, s')
  end.

Definition raise {A} (e : Exc) : M A := fun s => (Err e, s).

Definition lift {A} (r : Res A) : M A := fun s => (r, s).

Definition emit (ev : event) : M unit := fun s => (Ok tt, log s ev).

Notation "x <- m ;; k" := (bind m (fun x => k))
  (at level 61, m at next level, right associativity).

(** ** Constants (lines 6-16) *)

Definition CHAIN_HASH : string :=
  "52db9ba70e0cc0f6eaf7803dd07447a1f5477735fd3f661792ba94600c84e971".

Definition DRAND_ENDPOINTS : list string :=
  ["https://api.drand.sh"; "https://api2.drand.sh"; "https://api3.drand.sh";
   "https://drand.cloudflare.com"; "https://api.drand.secureweb3.com:6875"]%string.

(** [HTTP_FETCH_TIMEOUT] is in milliseconds, as the clock is. *)
Definition HTTP_FETCH_TIMEOUT : Z := 10000.

Definition MAX_PULSES_TO_FETCH : Z := 50.

Definition NO_RESPONSE : Exc := Exception "No valid response from any Drand endpoint".

Section Pipeline.

Variable env : Env.

Definition time_time : M Z := fun s =>
  (Ok (env_clock env (st_clock_reads s)),
   mkSt (st_chain s) (st_requests s) (S (st_clock_reads s)) (st_trace s)).

Definition requests_get (uri : string) : M HttpResp := fun s =>
  (Ok (env_http env (st_requests s) uri),
   mkSt (st_chain s) (S (st_requests s)) (st_clock_reads s) (st_trace s ++ [EvHttpGet uri])).

(** [substrate.query(...).value or 0] *)
Definition query (i : StorageItem) : M Z := fun s =>
  (Ok (match storage (st_chain s) i with Some v => v | None => 0 end), log s (EvQuery i)).

Definition keypair_sign (msg : list byte) : M (list byte) := fun s =>
  (Ok (env_sign env msg), log s (EvSign msg)).

(** [substrate.submit_extrinsic(..., wait_for_inclusion=True)] *)
Definition submit_extrinsic (call : Call) : M Receipt := fun s =>
  let (r, c') := env_submit env call (st_chain s) in
  (r, mkSt c' (st_requests s) (st_clock_reads s) (st_trace s ++ [EvSubmit call])).

(** The loop of [fetch_from_any_endpoint] (lines 28-37). *)
Fixpoint try_endpoints (deadline : Z) (relative_path : string) (eps : list string)
    : M Json :=
  match eps with
  | [] => raise NO_RESPONSE
  | endpoint :: eps' =>
      let next :=
        (t <- time_time ;;
         if deadline <? t then raise NO_RESPONSE
         else try_endpoints deadline relative_path eps') in
      response <- requests_get (endpoint ++ relative_path)%string ;;
      match response with
      | HttpResponse code body => if code =? 200 then ret body else next
      | HttpTransportError => next
      end
  end.

(** [fetch_from_any_endpoint] (lines 26-38), over an endpoint list. *)
Definition fetch_from_any_endpoint_in (eps : list string) (relative_path : string)
    : M Json :=
  t0 <- time_time ;;
  try_endpoints (t0 + HTTP_FETCH_TIMEOUT) relative_path eps.

Definition fetch_from_any_endpoint (relative_path : string) : M Json :=
  fetch_from_any_endpoint_in DRAND_ENDPOINTS relative_path.

Definition round_path (round_num : Z) : string :=
  ("/" ++ CHAIN_HASH ++ "/public/" ++ py_str round_num)%string.

Definition fetch_drand_by_round (round_num : Z) : M Json :=
  _ <- emit (EvFetchRound round_num) ;;
  fetch_from_any_endpoint (round_path round_num).

Definition fetch_drand_latest : M Json :=
  _ <- emit EvFetchLatest ;;
  fetch_from_any_endpoint ("/" ++ CHAIN_HASH ++ "/public/latest")%string.

(** [range(a, b)] *)
Definition py_range (a b : Z) : list Z :=
  map (fun i => a + Z.of_nat i) (seq 0 (Z.to_nat (b - a))).

(** Lines 96-120 of [submit_new_pulses]: [None] is one of the two early
    returns, [Some (last_stored_round, rounds_to_fetch)] goes on. *)
Definition gate_part (current_block : Z) : M (option (Z * Z)) :=
  next_unsigned_at <- query NextUnsignedAt ;;
  if current_block <? next_unsigned_at then ret None else
  last_stored_round <- query LastStoredRound ;;
  latest_resp <- fetch_drand_latest ;;
  latest_pulse <- lift (try_into_pulse latest_resp) ;;
  current_round <- lift (py_int (round latest_pulse)) ;;
  let last_stored_round :=
    if last_stored_round =? 0 then current_round - 1 else last_stored_round in
  if current_round <=? last_stored_round then
    (_ <- emit (EvPrint MsgNoNewRounds) ;; ret None)
  else ret (Some (last_stored_round,
                  Z.min (current_round - last_stored_round) MAX_PULSES_TO_FETCH)).

(** Lines 121-124: the loop over the target rounds. *)
Fixpoint fetch_rounds (rs : list Z) (pulses : list (Pulse Json)) : M (list (Pulse Json)) :=
  match rs with
  | [] => ret pulses
  | r :: rs' =>
      resp <- fetch_drand_by_round r ;;
      p <- lift (try_into_pulse resp) ;;
      fetch_rounds rs' (pulses ++ [p])
  end.

Definition pulse_for_call (p : Pulse Json) : Json * string * string :=
  (round p, ("0x" ++ bytes_hex (randomness p))%string,
   ("0x" ++ bytes_hex (signature p))%string).

(** Lines 126-173: encode, sign, compose the call, submit. *)
Definition submit_part (current_block last_stored_round rounds_to_fetch : Z)
    (pulses : list (Pulse Json)) : M unit :=
  match pulses with
  | [] => emit (EvPrint MsgNoNewPulses)
  | _ :: _ =>
      let public_bytes := env_public env in
      let payload := mkPayload current_block pulses public_bytes in
      _ <- emit (EvEncode payload) ;;
      encoded_payload <- lift (encode_pulses_payload payload) ;;
      signature_bytes <- keypair_sign encoded_payload ;;
      let call := mkCall current_block (map pulse_for_call pulses)
                    ("0x" ++ bytes_hex public_bytes)%string
                    ("0x" ++ bytes_hex signature_bytes)%string in
      receipt <- submit_extrinsic call ;;
      if is_success receipt then
        emit (EvPrint (MsgSubmitted (last_stored_round + 1) (last_stored_round + rounds_to_fetch)))
      else emit (EvPrint (MsgFailed (error_message receipt)))
  end.

(** [submit_new_pulses] (lines 95-173). *)
Definition submit_new_pulses (current_block : Z) : M unit :=
  d <- gate_part current_block ;;
  match d with
  | None => ret tt
  | Some (last_stored_round, rounds_to_fetch) =>
      pulses <- fetch_rounds (py_range (last_stored_round + 1)
                                (last_stored_round + 1 + rounds_to_fetch)) [] ;;
      submit_part current_block last_stored_round rounds_to_fetch pulses
  end.

(** [block_subscription_handler] over the notified block numbers: the
    handler does not catch, so an exception ends the subscription. *)
Fixpoint block_subscription (blocks : list Z) : M unit :=
  match blocks with
  | [] => ret tt
  | b :: bs => _ <- submit_new_pulses b ;; block_subscription bs
  end.

End Pipeline.

(** * Notions the properties are stated with, and concrete worlds *)

(** What the claims about [encode_compact_u32] call tier [(width, tag)]:
    the output is [width] bytes whose little-endian value is
    [(value << 2) | tag], that is [4 * value + tag]. *)
Definition compact_encodes (value : Z) (width : nat) (tag : Z) : Prop :=
  exists bs, encode_compact_u32 value = Ok bs /\ List.length bs = width /\
    le_value bs = Z.lor (Z.shiftl value 2) tag /\ le_value bs = 4 * value + tag.

(** The width of the compact encoding of a length, as a function. *)
Definition compact_width (n : Z) : nat :=
  if n <? 64 then 1 else if n <? 16384 then 2 else if n <? 1073741824 then 4 else 5.

(** The layout of §4.4, in its words: each pulse is its round as 8
    little-endian bytes, then the compact length and raw bytes of
    [randomness], then the compact length and raw bytes of [signature]; the
    compact encodings are those of [encode_compact_u32]. *)
Definition pulse_layout (p : Pulse Z) : Res (list byte) :=
  let? c1 := encode_compact_u32 (Z.of_nat (List.length (randomness p))) in
  let? c2 := encode_compact_u32 (Z.of_nat (List.length (signature p))) in
  Ok (le_bytes 8 (round p) ++ c1 ++ randomness p ++ c2 ++ signature p).

Fixpoint pulses_layout (ps : list (Pulse Z)) : Res (list byte) :=
  match ps with
  | [] => Ok []
  | p :: ps' =>
      let? b := pulse_layout p in
      let? rest := pulses_layout ps' in
      Ok (b ++ rest)
  end.

(** Block number as 4 little-endian bytes, compact pulse count, the pulses,
    the [Sr25519] discriminant [0x01], the raw public key. *)
Definition payload_layout (pl : PulsesPayload Z) : Res (list byte) :=
  let? count := encode_compact_u32 (Z.of_nat (List.length (pulses pl))) in
  let? body := pulses_layout (pulses pl) in
  Ok (le_bytes 4 (block_number pl) ++ count ++ body ++ [x01] ++ public pl).

Definition sample_payload : PulsesPayload Z :=
  mkPayload 258 [mkPulse 7 (repeat x11 32) [x22; x33]; mkPulse 8 (repeat x44 32) []]
    (repeat xaa 32).

(** [m] only appends events satisfying [P]. *)
Definition adds (P : event -> Prop) {A} (m : M A) : Prop :=
  forall s r s', m s = (r, s') -> exists evs, st_trace s' = st_trace s ++ evs /\ Forall P evs.

(** [m] leaves the chain's storage as it is. *)
Definition keeps_chain {A} (m : M A) : Prop :=
  forall s r s', m s = (r, s') -> st_chain s' = st_chain s.

(** [m] makes no HTTP request: the request counter stays as it is. *)
Definition keeps_requests {A} (m : M A) : Prop :=
  forall s r s', m s = (r, s') -> st_requests s' = st_requests s.

(** Events a cycle produces before it builds a payload. *)
Definition before_payload (ev : event) : Prop :=
  match ev with EvEncode _ | EvSign _ | EvSubmit _ => False | _ => True end.

(** Events of the HTTP layer alone. *)
Definition http_event (ev : event) : Prop :=
  match ev with EvHttpGet _ => True | _ => False end.

Definition http_failed (r : HttpResp) : Prop :=
  match r with
  | HttpTransportError => True
  | HttpResponse code _ => code <> 200
  end.

(** The run of the failover loop from state [s]: the [j]-th attempt is
    answered [out j]; after a failed [j]-th attempt the clock reads
    [env_clock (st_clock_reads s + j)].  Some [k] attempts are made, to the
    first [k] endpoints in order, every attempt but the last one failed in
    time, and the loop returns the last attempt's body or raises once the
    list is exhausted or the deadline is passed. *)
Definition failover_run (env : Env) (dl : Z) (path : string) (eps : list string)
    (s : St) (r : Res Json) (s' : St) : Prop :=
  let out j := env_http env (st_requests s + j) (nth j eps EmptyString ++ path)%string in
  let clock j := env_clock env (st_clock_reads s + j) in
  exists k, (k <= List.length eps)%nat /\
    st_trace s' = st_trace s ++ map (fun ep => EvHttpGet (ep ++ path)%string) (firstn k eps) /\
    (forall j, (j + 1 < k)%nat -> http_failed (out j) /\ clock j <= dl) /\
    match r with
    | Ok body => (0 < k)%nat /\ out (k - 1)%nat = HttpResponse 200 body
    | Err e => e = NO_RESPONSE /\ (forall j, (j < k)%nat -> http_failed (out j)) /\
               (k = List.length eps \/ ((0 < k)%nat /\ dl < clock (k - 1)%nat))
    end.

(** The state after the [time.time()] that computes the deadline. *)
Definition after_clock_read (s : St) : St :=
  mkSt (st_chain s) (st_requests s) (S (st_clock_reads s)) (st_trace s).

(** A beacon where the first two endpoints are down and the third answers. *)
Definition sample_body : Json := JObj [("round"%string, JInt 1)].

Definition abc_endpoints : list string := ["https://a"%string; "https://b"%string; "https://c"%string]%string.

Definition abc_env (late : Z) : Env :=
  mkEnv (fun _ uri => if String.eqb uri "https://c/p"%string then HttpResponse 200 sample_body
                      else if String.eqb uri "https://b/p"%string then HttpResponse 500 JNull
                      else HttpTransportError)
        (fun k => if Nat.eqb k 0 then 0 else late) [] (fun _ => [])
        (fun _ c => (Ok (mkReceipt true EmptyString), c)).

Definition empty_st : St := mkSt (mkChain None None) 0 0 [].

(** The fields of a response [try_into_pulse] accepts, read off the code:
    ["round"] is subscripted and kept as it is, ["randomness"] and
    ["signature"] are hex strings that [unhexlify] decodes, and the decoded
    randomness has 32 bytes. *)
Definition pulse_fields (resp : Json) (p : Pulse Json) : Prop :=
  exists kvs rs ss, resp = JObj kvs /\
    lookup_last "round" kvs = Some (round p) /\
    lookup_last "randomness" kvs = Some (JStr rs) /\ unhexlify_str rs = Ok (randomness p) /\
    lookup_last "signature" kvs = Some (JStr ss) /\ unhexlify_str ss = Ok (signature p) /\
    List.length (randomness p) = 32%nat.


(** A hex string of [n] zero bytes. *)
Fixpoint zero_hex (n : nat) : string :=
  match n with
  | O => EmptyString
  | S n' => ("00" ++ zero_hex n')%string
  end.

(** A response whose round is the text ["abc"]. *)
Definition text_round_resp : Json :=
  JObj [("round"%string, JStr "abc"); ("randomness"%string, JStr (zero_hex 32));
        ("signature"%string, JStr EmptyString)].

(** The rounds a stretch of trace asks the beacon for, in order. *)
Definition round_requests (evs : list event) : list Z :=
  flat_map (fun ev => match ev with EvFetchRound r => [r] | _ => [] end) evs.

(** Events of the gate: no round fetch, nothing of the payload. *)
Definition pre_round (ev : event) : Prop :=
  match ev with EvFetchRound _ | EvEncode _ | EvSign _ | EvSubmit _ => False | _ => True end.

(** Events of the submission part: no round fetch. *)
Definition no_round (ev : event) : Prop :=
  match ev with EvFetchRound _ => False | _ => True end.

(** Events after the payload marker: no round fetch, no second payload. *)
Definition after_encode (ev : event) : Prop :=
  match ev with EvFetchRound _ | EvEncode _ => False | _ => True end.

(** Round [q] was served as pulse [p]: some endpoint of the list answered
    [200] to the request for round [q], and [try_into_pulse] accepted the
    body as [p]. *)
Definition served (env : Env) (q : Z) (p : Pulse Json) : Prop :=
  exists n ep resp, In ep DRAND_ENDPOINTS /\
    env_http env n (ep ++ round_path q)%string = HttpResponse 200 resp /\
    try_into_pulse resp = Ok p.

(** Request number [n] of the run, to some endpoint of the list for round
    [q], was answered [200] with a body [try_into_pulse] accepts as [p]. *)
Definition served_at (env : Env) (n : nat) (q : Z) (p : Pulse Json) : Prop :=
  exists ep resp, In ep DRAND_ENDPOINTS /\
    env_http env n (ep ++ round_path q)%string = HttpResponse 200 resp /\
    try_into_pulse resp = Ok p.

(** [lsr + 1, ..., lsr + n] *)
Definition consecutive (first : Z) (n : nat) : list Z :=
  map (fun i => first + Z.of_nat i) (seq 0 n).

(** A beacon that answers every request with round 12. *)
Definition echo_body : Json :=
  JObj [("round"%string, JInt 12); ("randomness"%string, JStr (zero_hex 32));
        ("signature"%string, JStr EmptyString)].

Definition echo_env : Env :=
  mkEnv (fun _ _ => HttpResponse 200 echo_body) (fun _ => 0) [] (fun _ => [])
        (fun _ c => (Ok (mkReceipt true EmptyString), c)).

(** A beacon that answers the first request (the latest pulse) and then
    goes down. *)
Definition fail_env : Env :=
  mkEnv (fun n _ => if Nat.eqb n 0 then HttpResponse 200 echo_body else HttpTransportError)
        (fun _ => 0) [] (fun _ => []) (fun _ c => (Ok (mkReceipt true EmptyString), c)).

(** A beacon that answers the first request (the latest pulse), is down for
    the next five (every endpoint, for round 10) and then answers again. *)
Definition flaky_env : Env :=
  mkEnv (fun n _ => if Nat.eqb n 0 then HttpResponse 200 echo_body
                    else if Nat.leb n 5 then HttpTransportError
                    else HttpResponse 200 echo_body)
        (fun _ => 0) [] (fun _ => []) (fun _ c => (Ok (mkReceipt true EmptyString), c)).

Definition is_submit (ev : event) : bool :=
  match ev with EvSubmit _ => true | _ => false end.

(** The chain has stored round 9 and sets no threshold. *)
Definition echo_st : St := mkSt (mkChain None (Some 9)) 0 0 [].

Definition echo_pulse : Pulse Json := mkPulse (JInt 12) (repeat x00 32) [].

Definition echo_payload : PulsesPayload Json :=
  mkPayload 0 [echo_pulse; echo_pulse; echo_pulse] [].

(** The pulses encoded one after the other with [encode_pulse]. *)
Fixpoint encode_pulse_list {R} `{ToBytes R} (ps : list (Pulse R)) : Res (list byte) :=
  match ps with
  | [] => Ok []
  | p :: ps' =>
      let? b := encode_pulse p in
      let? rest := encode_pulse_list ps' in
      Ok (b ++ rest)
  end.

(** The number of bytes a pulse takes in the payload. *)
Definition pulse_size (p : Pulse Z) : nat :=
  8 + compact_width (Z.of_nat (List.length (randomness p))) + List.length (randomness p)
    + compact_width (Z.of_nat (List.length (signature p))) + List.length (signature p).

(** The two-bit tag of the tier a value falls in. *)
Definition compact_tag (n : Z) : Z :=
  if n <? 64 then 0 else if n <? 16384 then 1 else if n <? 1073741824 then 2 else 3.

(** The width a tag announces. *)
Definition width_of_tag (t : Z) : nat :=
  if t =? 0 then 1 else if t =? 1 then 2 else if t =? 2 then 4 else 5.

(** The payloads [encode_pulses_payload] accepts (integer rounds). *)
Definition payload_in_range (pl : PulsesPayload Z) : Prop :=
  0 <= block_number pl < 2 ^ 32 /\ Z.of_nat (List.length (pulses pl)) < 2 ^ 38 /\
  Forall (fun p => 0 <= round p < 2 ^ 64 /\
                   Z.of_nat (List.length (randomness p)) < 2 ^ 38 /\
                   Z.of_nat (List.length (signature p)) < 2 ^ 38) (pulses pl).

(** Counting the HTTP requests of a stretch of trace. *)
Definition is_get (ev : event) : bool :=
  match ev with EvHttpGet _ => true | _ => false end.

Definition gets (evs : list event) : nat := List.length (filter is_get evs).

(** [m] appends at most [n] HTTP requests to the trace. *)
Definition gets_at_most (n : nat) {A} (m : M A) : Prop :=
  forall s r s', m s = (r, s') ->
    exists evs, st_trace s' = st_trace s ++ evs /\ (gets evs <= n)%nat.

(** An HTTP request goes to one of [eps], for [relative_path]. *)
Definition get_in (eps : list string) (relative_path : string) (ev : event) : Prop :=
  match ev with
  | EvHttpGet uri => exists ep, In ep eps /\ uri = (ep ++ relative_path)%string
  | _ => True
  end.

(** An HTTP request goes to a drand endpoint, for the latest pulse or for a
    round. *)
Definition drand_get (ev : event) : Prop :=
  match ev with
  | EvHttpGet uri => exists ep tail, In ep DRAND_ENDPOINTS /\
      uri = (ep ++ "/" ++ CHAIN_HASH ++ "/public/" ++ tail)%string /\
      (tail = "latest"%string \/ exists r, tail = py_str r)
  | _ => True
  end.

(** * Properties *)

(** ** Bytes *)

Lemma Z_of_byte_range (b : byte) : 0 <= Z_of_byte b < 256.
Proof.
  unfold Z_of_byte. pose proof (Byte.to_N_bounded b). lia.
Qed.

Lemma land_255 (z : Z) : Z.land z 255 = z mod 256.
Proof.
  change 255 with (Z.ones 8). rewrite Z.land_ones by lia. reflexivity.
Qed.

Lemma Z_of_byte_of_Z (z : Z) : Z_of_byte (byte_of_Z z) = z mod 256.
Proof.
  unfold byte_of_Z, Z_of_byte. rewrite land_255.
  pose proof (Z.mod_pos_bound z 256 ltac:(lia)) as Hb.
  destruct (Byte.of_N (Z.to_N (z mod 256))) as [b|] eqn:E.
  - apply Byte.to_of_N in E. rewrite E. apply Z2N.id. lia.
  - apply Byte.of_N_None_iff in E. lia.
Qed.

Lemma length_le_bytes (n : nat) (v : Z) : List.length (le_bytes n v) = n.
Proof.
  revert v; induction n as [|n IH]; intros v; simpl; [reflexivity|].
  rewrite IH. reflexivity.
Qed.

Lemma le_value_le_bytes (n : nat) (v : Z) :
  0 <= v < 2 ^ (8 * Z.of_nat n) -> le_value (le_bytes n v) = v.
Proof.
  revert v; induction n as [|n IH]; intros v Hv; cbn [le_bytes le_value].
  - simpl in Hv. lia.
  - rewrite Z_of_byte_of_Z, land_255, Zmod_mod.
    rewrite Z.shiftr_div_pow2 by lia. change (2 ^ 8) with 256.
    rewrite IH.
    + pose proof (Z.div_mod v 256 ltac:(lia)). lia.
    + split; [apply Z.div_pos; lia|].
      apply Z.div_lt_upper_bound; [lia|].
      replace (8 * Z.of_nat (S n)) with (8 + 8 * Z.of_nat n) in Hv by lia.
      rewrite Z.pow_add_r in Hv by lia. lia.
Qed.

Lemma le_bytes_inj (n : nat) (v w : Z) :
  0 <= v < 2 ^ (8 * Z.of_nat n) -> 0 <= w < 2 ^ (8 * Z.of_nat n) ->
  le_bytes n v = le_bytes n w -> v = w.
Proof.
  intros Hv Hw E. rewrite <- (le_value_le_bytes n v Hv), <- (le_value_le_bytes n w Hw).
  now rewrite E.
Qed.

Lemma int_to_bytes_ok (v : Z) (n : nat) (bs : list byte) :
  int_to_bytes v n = Ok bs -> 0 <= v < 2 ^ (8 * Z.of_nat n) /\ bs = le_bytes n v.
Proof.
  unfold int_to_bytes. destruct (0 <=? v) eqn:E1, (v <? 2 ^ (8 * Z.of_nat n)) eqn:E2;
    simpl; intros H; try discriminate.
  injection H as <-. apply Z.leb_le in E1. apply Z.ltb_lt in E2. auto.
Qed.

Lemma int_to_bytes_in_range (v : Z) (n : nat) :
  0 <= v < 2 ^ (8 * Z.of_nat n) -> int_to_bytes v n = Ok (le_bytes n v).
Proof.
  intros [H1 H2]. unfold int_to_bytes.
  apply Z.leb_le in H1. apply Z.ltb_lt in H2. now rewrite H1, H2.
Qed.

(** ** The compact encoding

    [(value << 2) | tag] for a two-bit tag is [4 * value + tag]. *)

Lemma split_low2 (x : Z) : x = 4 * Z.shiftr x 2 + Z.land x 3.
Proof.
  rewrite Z.shiftr_div_pow2 by lia. change 3 with (Z.ones 2).
  rewrite Z.land_ones by lia. change (2 ^ 2) with 4. apply Z.div_mod. lia.
Qed.

Lemma lor_shiftl2 (v t : Z) : 0 <= t < 4 -> Z.lor (Z.shiftl v 2) t = 4 * v + t.
Proof.
  intros Ht. rewrite (split_low2 (Z.lor (Z.shiftl v 2) t)).
  rewrite Z.shiftr_lor, Z.land_lor_distr_l.
  rewrite Z.shiftl_mul_pow2 by lia. change (2 ^ 2) with 4.
  rewrite !Z.shiftr_div_pow2 by lia. change (2 ^ 2) with 4.
  change 3 with (Z.ones 2). rewrite !Z.land_ones by lia. change (2 ^ 2) with 4.
  rewrite Z.div_mul by lia. rewrite (Z.div_small t 4) by lia.
  rewrite Z.mod_mul by lia. rewrite (Z.mod_small t 4) by lia.
  rewrite Z.lor_0_r, Z.lor_0_l. reflexivity.
Qed.

Lemma compact_encodes_intro (value : Z) (width : nat) (tag : Z) :
  0 <= tag < 4 -> 0 <= 4 * value + tag < 2 ^ (8 * Z.of_nat width) ->
  encode_compact_u32 value = int_to_bytes (Z.lor (Z.shiftl value 2) tag) width ->
  compact_encodes value width tag.
Proof.
  intros Ht Hr E. rewrite lor_shiftl2 in * by exact Ht.
  exists (le_bytes width (4 * value + tag)).
  rewrite E, int_to_bytes_in_range by exact Hr.
  rewrite length_le_bytes, le_value_le_bytes by exact Hr.
  rewrite lor_shiftl2 by exact Ht. auto.
Qed.

Lemma compact_tier_1 (v : Z) : 0 <= v < 64 -> compact_encodes v 1 0.
Proof.
  intros Hv. apply compact_encodes_intro;
    [lia | change (2 ^ (8 * Z.of_nat 1)) with 256; lia |].
  unfold encode_compact_u32. rewrite (proj2 (Z.ltb_lt v 64)) by lia.
  f_equal. rewrite Z.lor_0_r, land_255, Z.shiftl_mul_pow2 by lia.
  change (2 ^ 2) with 4. apply Z.mod_small. lia.
Qed.

Lemma compact_tier_2 (v : Z) : 64 <= v < 16384 -> compact_encodes v 2 1.
Proof.
  intros Hv. apply compact_encodes_intro;
    [lia | change (2 ^ (8 * Z.of_nat 2)) with 65536; lia |].
  unfold encode_compact_u32.
  rewrite (proj2 (Z.ltb_ge v 64)), (proj2 (Z.ltb_lt v 16384)) by lia.
  reflexivity.
Qed.

Lemma compact_tier_3 (v : Z) : 16384 <= v < 1073741824 -> compact_encodes v 4 2.
Proof.
  intros Hv. apply compact_encodes_intro;
    [lia | change (2 ^ (8 * Z.of_nat 4)) with 4294967296; lia |].
  unfold encode_compact_u32.
  rewrite (proj2 (Z.ltb_ge v 64)), (proj2 (Z.ltb_ge v 16384)),
    (proj2 (Z.ltb_lt v 1073741824)) by lia.
  reflexivity.
Qed.

Lemma compact_tier_4 (v : Z) : 1073741824 <= v < 2 ^ 38 -> compact_encodes v 5 3.
Proof.
  intros Hv. apply compact_encodes_intro;
    [lia | change (2 ^ (8 * Z.of_nat 5)) with 1099511627776; lia |].
  unfold encode_compact_u32.
  rewrite (proj2 (Z.ltb_ge v 64)), (proj2 (Z.ltb_ge v 16384)),
    (proj2 (Z.ltb_ge v 1073741824)) by lia.
  reflexivity.
Qed.

Lemma compact_overflow (v : Z) : 2 ^ 38 <= v -> encode_compact_u32 v = Err OverflowError.
Proof.
  intros Hv. unfold encode_compact_u32.
  rewrite (proj2 (Z.ltb_ge v 64)), (proj2 (Z.ltb_ge v 16384)),
    (proj2 (Z.ltb_ge v 1073741824)) by lia.
  unfold int_to_bytes. rewrite lor_shiftl2 by lia.
  change (2 ^ (8 * Z.of_nat 5)) with 1099511627776.
  rewrite (proj2 (Z.ltb_ge (4 * v + 3) 1099511627776)) by lia.
  rewrite andb_false_r. reflexivity.
Qed.

Lemma compact_negative (v : Z) :
  v < 0 -> encode_compact_u32 v = Ok [byte_of_Z (Z.land (Z.shiftl v 2) 255)].
Proof.
  intros Hv. unfold encode_compact_u32. rewrite (proj2 (Z.ltb_lt v 64)) by lia.
  rewrite int_to_bytes_in_range.
  - cbn [le_bytes]. rewrite <- Z.land_assoc. reflexivity.
  - rewrite land_255. change (2 ^ (8 * Z.of_nat 1)) with 256. pose proof (Z.mod_pos_bound (Z.shiftl v 2) 256). lia.
Qed.

Lemma compact_total_below (v : Z) :
  0 <= v < 2 ^ 38 -> exists bs, encode_compact_u32 v = Ok bs.
Proof.
  intros Hv.
  destruct (Z.lt_ge_cases v 64) as [H1|H1];
    [destruct (compact_tier_1 v ltac:(lia)) as [bs [E _]]; eauto|].
  destruct (Z.lt_ge_cases v 16384) as [H2|H2];
    [destruct (compact_tier_2 v ltac:(lia)) as [bs [E _]]; eauto|].
  destruct (Z.lt_ge_cases v 1073741824) as [H3|H3];
    [destruct (compact_tier_3 v ltac:(lia)) as [bs [E _]]; eauto|].
  destruct (compact_tier_4 v ltac:(lia)) as [bs [E _]]; eauto.
Qed.

Lemma compact_length (n : Z) (bs : list byte) :
  0 <= n -> encode_compact_u32 n = Ok bs -> List.length bs = compact_width n.
Proof.
  intros Hn E. unfold compact_width.
  destruct (Z.ltb_spec n 64).
  { destruct (compact_tier_1 n ltac:(lia)) as [bs' [E' [L _]]]. congruence. }
  destruct (Z.ltb_spec n 16384).
  { destruct (compact_tier_2 n ltac:(lia)) as [bs' [E' [L _]]]. congruence. }
  destruct (Z.ltb_spec n 1073741824).
  { destruct (compact_tier_3 n ltac:(lia)) as [bs' [E' [L _]]]. congruence. }
  destruct (Z.ltb_spec n (2 ^ 38)).
  { destruct (compact_tier_4 n ltac:(lia)) as [bs' [E' [L _]]]. congruence. }
  rewrite compact_overflow in E by lia. discriminate.
Qed.

Lemma compact_width_mono (n m : Z) : n <= m -> (compact_width n <= compact_width m)%nat.
Proof.
  intros H. unfold compact_width.
  destruct (Z.ltb_spec n 64), (Z.ltb_spec m 64), (Z.ltb_spec n 16384),
    (Z.ltb_spec m 16384), (Z.ltb_spec n 1073741824), (Z.ltb_spec m 1073741824);
    lia.
Qed.

(** ** The payload layout *)

Lemma encode_pulses_loop_layout (ps : list (Pulse Z)) (acc : list byte) :
  Forall (fun p => 0 <= round p < 2 ^ 64) ps ->
  encode_pulses_loop ps acc = (let? body := pulses_layout ps in Ok (acc ++ body)).
Proof.
  revert acc; induction ps as [|p ps IH]; intros acc Hr;
    cbn [encode_pulses_loop pulses_layout].
  - cbn [res_bind]. rewrite app_nil_r. reflexivity.
  - inversion Hr as [|? ? Hp Hps]; subst.
    unfold to_bytes, ToBytes_int. rewrite int_to_bytes_in_range by exact Hp.
    cbn [res_bind]. unfold pulse_layout.
    destruct (encode_compact_u32 (Z.of_nat (List.length (randomness p)))) as [c1|e];
      cbn [res_bind]; [|reflexivity].
    destruct (encode_compact_u32 (Z.of_nat (List.length (signature p)))) as [c2|e];
      cbn [res_bind]; [|reflexivity].
    rewrite IH by exact Hps.
    destruct (pulses_layout ps) as [rest|e]; cbn [res_bind]; [|reflexivity].
    rewrite !app_assoc. reflexivity.
Qed.

Lemma encode_pulses_loop_rounds (ps : list (Pulse Z)) (acc o : list byte) :
  encode_pulses_loop ps acc = Ok o -> Forall (fun p => 0 <= round p < 2 ^ 64) ps.
Proof.
  revert acc; induction ps as [|p ps IH]; intros acc E; [constructor|].
  cbn [encode_pulses_loop] in E. unfold to_bytes, ToBytes_int in E.
  destruct (int_to_bytes (round p) 8) as [r|e] eqn:Er; cbn [res_bind] in E;
    [|discriminate].
  apply int_to_bytes_ok in Er as [Hr _].
  destruct (encode_compact_u32 (Z.of_nat (List.length (randomness p)))) as [c1|e];
    cbn [res_bind] in E; [|discriminate].
  destruct (encode_compact_u32 (Z.of_nat (List.length (signature p)))) as [c2|e];
    cbn [res_bind] in E; [|discriminate].
  constructor; [exact Hr | eapply IH; exact E].
Qed.

Lemma encode_pulses_payload_ok (pl : PulsesPayload Z) (o : list byte) :
  encode_pulses_payload pl = Ok o ->
  0 <= block_number pl < 2 ^ 32 /\
  Forall (fun p => 0 <= round p < 2 ^ 64) (pulses pl) /\
  payload_layout pl = Ok o.
Proof.
  intros E. unfold encode_pulses_payload in E.
  destruct (int_to_bytes (block_number pl) 4) as [b|e] eqn:Eb; cbn [res_bind] in E;
    [|discriminate].
  apply int_to_bytes_ok in Eb as [Hb ->].
  destruct (encode_compact_u32 (Z.of_nat (List.length (pulses pl)))) as [c|e] eqn:Ec;
    cbn [res_bind] in E; [|discriminate].
  destruct (encode_pulses_loop (pulses pl) (le_bytes 4 (block_number pl) ++ c))
    as [body|e] eqn:El; cbn [res_bind] in E; [|discriminate].
  assert (Hr := encode_pulses_loop_rounds _ _ _ El).
  rewrite encode_pulses_loop_layout in El by exact Hr.
  split; [exact Hb|]. split; [exact Hr|].
  unfold payload_layout. rewrite Ec. cbn [res_bind].
  destruct (pulses_layout (pulses pl)) as [bd|e]; cbn [res_bind] in El |- *;
    [|discriminate].
  assert (body = (le_bytes 4 (block_number pl) ++ c) ++ bd) as -> by congruence.
  rewrite <- E, <- !app_assoc. reflexivity.
Qed.

Lemma pulses_layout_app (pre post : list (Pulse Z)) :
  pulses_layout (pre ++ post) =
  (let? a := pulses_layout pre in let? b := pulses_layout post in Ok (a ++ b)).
Proof.
  induction pre as [|p pre IH]; cbn [app pulses_layout res_bind].
  - destruct (pulses_layout post); reflexivity.
  - destruct (pulse_layout p) as [b|e]; cbn [res_bind]; [|reflexivity].
    rewrite IH. destruct (pulses_layout pre) as [a|e]; cbn [res_bind]; [|reflexivity].
    destruct (pulses_layout post) as [c|e]; cbn [res_bind]; [|reflexivity].
    rewrite app_assoc. reflexivity.
Qed.

Lemma app_inv_length {A} (a b c d : list A) :
  List.length a = List.length b -> a ++ c = b ++ d -> a = b /\ c = d.
Proof.
  revert b; induction a as [|x a IH]; intros [|y b] L E; try discriminate; auto.
  injection E as -> E. injection L as L. destruct (IH b L E) as [-> ->]. auto.
Qed.

(** A compact length prefix followed by the bytes it counts determines them. *)
Lemma compact_prefixed_inj (x y c d : list byte) :
  encode_compact_u32 (Z.of_nat (List.length x)) = Ok c ->
  encode_compact_u32 (Z.of_nat (List.length y)) = Ok d ->
  c ++ x = d ++ y -> x = y.
Proof.
  intros Ec Ed E.
  assert (Lc := compact_length _ _ (Nat2Z.is_nonneg _) Ec).
  assert (Ld := compact_length _ _ (Nat2Z.is_nonneg _) Ed).
  assert (L : (List.length c + List.length x = List.length d + List.length y)%nat)
    by (rewrite <- !length_app; now rewrite E).
  assert (Hxy : List.length x = List.length y).
  { destruct (Nat.lt_trichotomy (List.length x) (List.length y)) as [H|[H|H]]; auto.
    - pose proof (compact_width_mono (Z.of_nat (List.length x))
                    (Z.of_nat (List.length y)) ltac:(lia)). lia.
    - pose proof (compact_width_mono (Z.of_nat (List.length y))
                    (Z.of_nat (List.length x)) ltac:(lia)). lia. }
  rewrite Hxy in Ec. rewrite Ec in Ed. injection Ed as ->.
  apply app_inv_head in E. exact E.
Qed.

(** Two payloads that differ only in one pulse and encode to the same bytes
    give that pulse the same bytes. *)
Lemma payload_layout_pulse_cancel (b : Z) (pre post : list (Pulse Z)) (p q : Pulse Z)
    (k o : list byte) :
  payload_layout (mkPayload b (pre ++ p :: post) k) = Ok o ->
  payload_layout (mkPayload b (pre ++ q :: post) k) = Ok o ->
  exists e, pulse_layout p = Ok e /\ pulse_layout q = Ok e.
Proof.
  unfold payload_layout. cbn [pulses block_number public].
  rewrite !length_app. cbn [List.length].
  destruct (encode_compact_u32 _) as [c|err]; cbn [res_bind]; [|discriminate].
  rewrite !pulses_layout_app. cbn [pulses_layout].
  destruct (pulses_layout pre) as [a|err]; cbn [res_bind]; [|discriminate].
  destruct (pulse_layout p) as [e|err]; cbn [res_bind]; [|discriminate].
  destruct (pulse_layout q) as [e'|err]; cbn [res_bind];
    [|destruct (pulses_layout post); discriminate].
  destruct (pulses_layout post) as [z|err]; cbn [res_bind]; [|discriminate].
  intros E1 E2.
  assert (H : (le_bytes 4 b ++ c ++ a) ++ e ++ (z ++ [x01] ++ k) =
              (le_bytes 4 b ++ c ++ a) ++ e' ++ (z ++ [x01] ++ k)).
  { rewrite <- !app_assoc in E1. rewrite <- !app_assoc in E2.
    rewrite <- !app_assoc. congruence. }
  apply app_inv_head in H. apply app_inv_tail in H. subst e'. eauto.
Qed.

Lemma payload_rounds_split (pre post : list (Pulse Z)) (p : Pulse Z) :
  Forall (fun p => 0 <= round p < 2 ^ 64) (pre ++ p :: post) -> 0 <= round p < 2 ^ 64.
Proof.
  intros H. apply Forall_app in H as [_ H]. inversion H; assumption.
Qed.

(** * The claims *)

(** ** encode_pulses_payload *)

(** C1: for a block number below [2^32] and pulse rounds below [2^64],
    [encode_pulses_payload] returns exactly the layout of §4.4: the block
    number as 4 little-endian bytes, the compact pulse count, for each pulse
    in order its round as 8 little-endian bytes, the compact length and raw
    bytes of its randomness, the compact length and raw bytes of its
    signature, then the byte [0x01] ([Sr25519]) and the raw public key. *)
Theorem encode_pulses_payload_layout (pl : PulsesPayload Z) :
  0 <= block_number pl < 2 ^ 32 ->
  Forall (fun p => 0 <= round p < 2 ^ 64) (pulses pl) ->
  encode_pulses_payload pl = payload_layout pl.
Proof.
  intros Hb Hr. unfold encode_pulses_payload, payload_layout.
  rewrite int_to_bytes_in_range by exact Hb. cbn [res_bind].
  destruct (encode_compact_u32 (Z.of_nat (List.length (pulses pl)))) as [c|e];
    cbn [res_bind]; [|reflexivity].
  rewrite encode_pulses_loop_layout by exact Hr.
  destruct (pulses_layout (pulses pl)) as [body|e]; cbn [res_bind]; [|reflexivity].
  rewrite <- !app_assoc. reflexivity.
Qed.

Lemma encode_pulses_payload_layout_witness :
  encode_pulses_payload sample_payload = payload_layout sample_payload.
Proof.
  apply encode_pulses_payload_layout.
  - cbn. lia.
  - repeat constructor; cbn; lia.
Defined.

(** C9: encoding is a function of the payload (two runs agree), and two
    payloads that differ in exactly one field (the block number, one pulse's
    round, randomness or signature, or the public key) and both encode have
    different encodings. *)
Theorem encode_pulses_payload_pure_and_field_sensitive :
  (forall pl : PulsesPayload Z, encode_pulses_payload pl = encode_pulses_payload pl) /\
  (forall (pl : PulsesPayload Z) b o1 o2, b <> block_number pl ->
     encode_pulses_payload pl = Ok o1 ->
     encode_pulses_payload (mkPayload b (pulses pl) (public pl)) = Ok o2 -> o1 <> o2) /\
  (forall b pre (p : Pulse Z) post k r o1 o2, r <> round p ->
     encode_pulses_payload (mkPayload b (pre ++ p :: post) k) = Ok o1 ->
     encode_pulses_payload
       (mkPayload b (pre ++ mkPulse r (randomness p) (signature p) :: post) k) = Ok o2 ->
     o1 <> o2) /\
  (forall b pre (p : Pulse Z) post k x o1 o2, x <> randomness p ->
     encode_pulses_payload (mkPayload b (pre ++ p :: post) k) = Ok o1 ->
     encode_pulses_payload
       (mkPayload b (pre ++ mkPulse (round p) x (signature p) :: post) k) = Ok o2 ->
     o1 <> o2) /\
  (forall b pre (p : Pulse Z) post k y o1 o2, y <> signature p ->
     encode_pulses_payload (mkPayload b (pre ++ p :: post) k) = Ok o1 ->
     encode_pulses_payload
       (mkPayload b (pre ++ mkPulse (round p) (randomness p) y :: post) k) = Ok o2 ->
     o1 <> o2) /\
  (forall (pl : PulsesPayload Z) k o1 o2, k <> public pl ->
     encode_pulses_payload pl = Ok o1 ->
     encode_pulses_payload (mkPayload (block_number pl) (pulses pl) k) = Ok o2 ->
     o1 <> o2).
Proof.
  split; [reflexivity|].
  split.
  { intros pl b o1 o2 Hne E1 E2 <-.
    apply encode_pulses_payload_ok in E1 as [Hb1 [_ L1]].
    apply encode_pulses_payload_ok in E2 as [Hb2 [_ L2]].
    cbn [block_number] in Hb2. unfold payload_layout in L1, L2.
    cbn [block_number pulses public] in L2.
    destruct (encode_compact_u32 _) as [c|e]; cbn [res_bind] in L1, L2; [|discriminate].
    destruct (pulses_layout (pulses pl)) as [body|e]; cbn [res_bind] in L1, L2;
      [|discriminate].
    assert (H : le_bytes 4 (block_number pl) ++ (c ++ body ++ [x01] ++ public pl) =
                le_bytes 4 b ++ (c ++ body ++ [x01] ++ public pl)) by congruence.
    apply app_inv_tail in H. apply le_bytes_inj in H; [lia | exact Hb1 | exact Hb2]. }
  split.
  { intros b pre p post k r o1 o2 Hne E1 E2 <-.
    apply encode_pulses_payload_ok in E1 as [_ [F1 L1]].
    apply encode_pulses_payload_ok in E2 as [_ [F2 L2]].
    cbn [pulses] in F1, F2.
    pose proof (payload_rounds_split _ _ _ F1) as R1.
    pose proof (payload_rounds_split _ _ _ F2) as R2. cbn [round] in R2.
    destruct (payload_layout_pulse_cancel _ _ _ _ _ _ _ L1 L2) as [e [P1 P2]].
    unfold pulse_layout in P1, P2. cbn [round randomness signature] in P2.
    destruct (encode_compact_u32 (Z.of_nat (List.length (randomness p)))) as [c1|er];
      cbn [res_bind] in P1, P2; [|discriminate].
    destruct (encode_compact_u32 (Z.of_nat (List.length (signature p)))) as [c2|er];
      cbn [res_bind] in P1, P2; [|discriminate].
    assert (H : le_bytes 8 (round p) ++ (c1 ++ randomness p ++ c2 ++ signature p) =
                le_bytes 8 r ++ (c1 ++ randomness p ++ c2 ++ signature p)) by congruence.
    apply app_inv_tail in H. apply le_bytes_inj in H; [lia | exact R1 | exact R2]. }
  split.
  { intros b pre p post k x o1 o2 Hne E1 E2 <-.
    apply encode_pulses_payload_ok in E1 as [_ [_ L1]].
    apply encode_pulses_payload_ok in E2 as [_ [_ L2]].
    destruct (payload_layout_pulse_cancel _ _ _ _ _ _ _ L1 L2) as [e [P1 P2]].
    unfold pulse_layout in P1, P2. cbn [round randomness signature] in P2.
    destruct (encode_compact_u32 (Z.of_nat (List.length (randomness p)))) as [c1|er]
      eqn:Ec1; cbn [res_bind] in P1; [|discriminate].
    destruct (encode_compact_u32 (Z.of_nat (List.length x))) as [d1|er]
      eqn:Ed1; cbn [res_bind] in P2; [|discriminate].
    destruct (encode_compact_u32 (Z.of_nat (List.length (signature p)))) as [c2|er];
      cbn [res_bind] in P1, P2; [|discriminate].
    assert (H : le_bytes 8 (round p) ++ (c1 ++ randomness p) ++ (c2 ++ signature p) =
                le_bytes 8 (round p) ++ (d1 ++ x) ++ (c2 ++ signature p))
      by (rewrite <- !app_assoc; congruence).
    apply app_inv_head in H. apply app_inv_tail in H.
    apply Hne. symmetry. exact (compact_prefixed_inj _ _ _ _ Ec1 Ed1 H). }
  split.
  { intros b pre p post k y o1 o2 Hne E1 E2 <-.
    apply encode_pulses_payload_ok in E1 as [_ [_ L1]].
    apply encode_pulses_payload_ok in E2 as [_ [_ L2]].
    destruct (payload_layout_pulse_cancel _ _ _ _ _ _ _ L1 L2) as [e [P1 P2]].
    unfold pulse_layout in P1, P2. cbn [round randomness signature] in P2.
    destruct (encode_compact_u32 (Z.of_nat (List.length (randomness p)))) as [c1|er];
      cbn [res_bind] in P1, P2; [|discriminate].
    destruct (encode_compact_u32 (Z.of_nat (List.length (signature p)))) as [c2|er]
      eqn:Ec2; cbn [res_bind] in P1; [|discriminate].
    destruct (encode_compact_u32 (Z.of_nat (List.length y))) as [d2|er]
      eqn:Ed2; cbn [res_bind] in P2; [|discriminate].
    assert (H : (le_bytes 8 (round p) ++ c1 ++ randomness p) ++ (c2 ++ signature p) =
                (le_bytes 8 (round p) ++ c1 ++ randomness p) ++ (d2 ++ y))
      by (rewrite <- !app_assoc; congruence).
    apply app_inv_head in H.
    apply Hne. symmetry. exact (compact_prefixed_inj _ _ _ _ Ec2 Ed2 H). }
  { intros pl k o1 o2 Hne E1 E2 <-.
    apply encode_pulses_payload_ok in E1 as [_ [_ L1]].
    apply encode_pulses_payload_ok in E2 as [_ [_ L2]].
    unfold payload_layout in L1, L2. cbn [block_number pulses public] in L2.
    destruct (encode_compact_u32 _) as [c|e]; cbn [res_bind] in L1, L2; [|discriminate].
    destruct (pulses_layout (pulses pl)) as [body|e]; cbn [res_bind] in L1, L2;
      [|discriminate].
    assert (H : (le_bytes 4 (block_number pl) ++ c ++ body ++ [x01]) ++ public pl =
                (le_bytes 4 (block_number pl) ++ c ++ body ++ [x01]) ++ k)
      by (rewrite <- !app_assoc; congruence).
    apply app_inv_head in H. congruence. }
Qed.

Lemma encode_pulses_payload_pure_and_field_sensitive_witness :
  exists o1 o2,
    encode_pulses_payload sample_payload = Ok o1 /\
    encode_pulses_payload
      (mkPayload (block_number sample_payload) (pulses sample_payload) [x01]) = Ok o2 /\
    o1 <> o2.
Proof.
  do 2 eexists. split; [reflexivity|]. split; [reflexivity|].
  apply (proj2 (proj2 (proj2 (proj2 (proj2 encode_pulses_payload_pure_and_field_sensitive)))))
    with (pl := sample_payload) (k := [x01]).
  - discriminate.
  - reflexivity.
  - reflexivity.
Defined.

(** ** encode_compact_u32 *)

(** C3 (as amended): on non-negative values the tier follows the table of
    §4.1, each output being [(value << 2) | tag] in little-endian order:
    [[0, 64)] one byte with tag [0b00], [[64, 16384)] two bytes with tag
    [0b01], [[16384, 2^30)] four bytes with tag [0b10], [[2^30, 2^38)] five
    bytes with tag [0b11]; from [2^38] on the shifted value no longer fits
    five bytes and [to_bytes] raises [OverflowError]. *)
Theorem encode_compact_u32_tiers :
  (forall v, 0 <= v < 64 -> compact_encodes v 1 0) /\
  (forall v, 64 <= v < 16384 -> compact_encodes v 2 1) /\
  (forall v, 16384 <= v < 1073741824 -> compact_encodes v 4 2) /\
  (forall v, 1073741824 <= v < 2 ^ 38 -> compact_encodes v 5 3) /\
  (forall v, 2 ^ 38 <= v -> encode_compact_u32 v = Err OverflowError).
Proof.
  repeat split.
  - exact compact_tier_1.
  - exact compact_tier_2.
  - exact compact_tier_3.
  - exact compact_tier_4.
  - exact compact_overflow.
Qed.

(** The boundary values of §8 through the theorem. *)
Lemma encode_compact_u32_tiers_witness :
  compact_encodes 0 1 0 /\ compact_encodes 63 1 0 /\ compact_encodes 64 2 1 /\
  compact_encodes 16383 2 1 /\ compact_encodes 16384 4 2 /\
  compact_encodes 1073741823 4 2 /\ compact_encodes 1073741824 5 3.
Proof.
  destruct encode_compact_u32_tiers as [T1 [T2 [T3 [T4 _]]]].
  repeat split; [apply T1 | apply T1 | apply T2 | apply T2 | apply T3 | apply T3 | apply T4];
    lia.
Defined.

(** C3 as stated promises five bytes [(value << 2) | 0b11] for every value
    from [2^30] on; at [2^38] the call raises instead. *)
Lemma encode_compact_u32_no_5_bytes_at_2_38 : ~ compact_encodes (2 ^ 38) 5 3.
Proof.
  intros [bs [E _]]. vm_compute in E. discriminate.
Qed.

(** C4 (as amended): [encode_compact_u32] has no check for negative values:
    a negative value takes the first tier and yields the single byte
    [(value << 2) & 0xFF]; every value in [[0, 2^38)] yields bytes, and every
    value from [2^38] on raises [OverflowError]. *)
Theorem encode_compact_u32_domain :
  (forall v, v < 0 -> encode_compact_u32 v = Ok [byte_of_Z (Z.land (Z.shiftl v 2) 255)]) /\
  (forall v, 0 <= v < 2 ^ 38 -> exists bs, encode_compact_u32 v = Ok bs) /\
  (forall v, 2 ^ 38 <= v -> encode_compact_u32 v = Err OverflowError).
Proof.
  split; [exact compact_negative|]. split; [exact compact_total_below | exact compact_overflow].
Qed.

Lemma encode_compact_u32_domain_witness :
  encode_compact_u32 (-1) = Ok [byte_of_Z (Z.land (Z.shiftl (-1) 2) 255)] /\
  (exists bs, encode_compact_u32 1073741824 = Ok bs) /\
  encode_compact_u32 (2 ^ 38) = Err OverflowError.
Proof.
  destruct encode_compact_u32_domain as [N [T O]].
  split; [apply N; lia|]. split; [apply T; lia | apply O; lia].
Defined.

(** C4 as stated: the call fails exactly on negative values.  At [-1] it
    returns the byte [0xfc]. *)
Lemma encode_compact_u32_negative_accepted :
  ~ (forall v, (exists e, encode_compact_u32 v = Err e) <-> v < 0).
Proof.
  intros H. destruct (proj2 (H (-1)) ltac:(lia)) as [e E].
  vm_compute in E. discriminate.
Qed.

(** ** What a computation appends to the trace *)

Section Effects.

Variable env : Env.

Lemma adds_ret P {A} (a : A) : adds P (ret a).
Proof. intros s r s' E. injection E as <- <-. exists []. rewrite app_nil_r. auto. Qed.

Lemma adds_raise P {A} e : adds P (@raise A e).
Proof. intros s r s' E. injection E as <- <-. exists []. rewrite app_nil_r. auto. Qed.

Lemma adds_lift P {A} (x : Res A) : adds P (lift x).
Proof. intros s r s' E. injection E as <- <-. exists []. rewrite app_nil_r. auto. Qed.

Lemma adds_emit (P : event -> Prop) ev : P ev -> adds P (emit ev).
Proof. intros H s r s' E. injection E as <- <-. exists [ev]. cbn. auto. Qed.

Lemma adds_time P : adds P (time_time env).
Proof. intros s r s' E. injection E as <- <-. exists []. cbn. rewrite app_nil_r. auto. Qed.

Lemma adds_get (P : event -> Prop) uri : P (EvHttpGet uri) -> adds P (requests_get env uri).
Proof. intros H s r s' E. injection E as <- <-. exists [EvHttpGet uri]. cbn. auto. Qed.

Lemma adds_query (P : event -> Prop) i : P (EvQuery i) -> adds P (query i).
Proof. intros H s r s' E. injection E as <- <-. exists [EvQuery i]. cbn. auto. Qed.

Lemma adds_bind P {A B} (m : M A) (k : A -> M B) :
  adds P m -> (forall a, adds P (k a)) -> adds P (bind m k).
Proof.
  intros Hm Hk s r s' E. unfold bind in E.
  destruct (m s) as [[a|e] s1] eqn:Em.
  - destruct (Hm _ _ _ Em) as [e1 [T1 F1]]. destruct (Hk a _ _ _ E) as [e2 [T2 F2]].
    exists (e1 ++ e2). rewrite T2, T1, app_assoc. split; [reflexivity|].
    apply Forall_app. auto.
  - injection E as <- <-. exact (Hm _ _ _ Em).
Qed.

Lemma adds_mono (P Q : event -> Prop) {A} (m : M A) :
  (forall ev, P ev -> Q ev) -> adds P m -> adds Q m.
Proof.
  intros HPQ H s r s' E. destruct (H _ _ _ E) as [evs [T F]].
  exists evs. split; [exact T|]. eapply Forall_impl; eauto.
Qed.

Lemma keeps_ret {A} (a : A) : keeps_chain (ret a).
Proof. intros s r s' E. now injection E as <- <-. Qed.

Lemma keeps_raise {A} e : keeps_chain (@raise A e).
Proof. intros s r s' E. now injection E as <- <-. Qed.

Lemma keeps_lift {A} (x : Res A) : keeps_chain (lift x).
Proof. intros s r s' E. now injection E as <- <-. Qed.

Lemma keeps_emit ev : keeps_chain (emit ev).
Proof. intros s r s' E. now injection E as <- <-. Qed.

Lemma keeps_time : keeps_chain (time_time env).
Proof. intros s r s' E. now injection E as <- <-. Qed.

Lemma keeps_get uri : keeps_chain (requests_get env uri).
Proof. intros s r s' E. now injection E as <- <-. Qed.

Lemma keeps_query i : keeps_chain (query i).
Proof. intros s r s' E. now injection E as <- <-. Qed.

Lemma keeps_bind {A B} (m : M A) (k : A -> M B) :
  keeps_chain m -> (forall a, keeps_chain (k a)) -> keeps_chain (bind m k).
Proof.
  intros Hm Hk s r s' E. unfold bind in E.
  destruct (m s) as [[a|e] s1] eqn:Em.
  - rewrite (Hk a _ _ _ E). exact (Hm _ _ _ Em).
  - injection E as <- <-. exact (Hm _ _ _ Em).
Qed.

End Effects.

Create HintDb effects.
#[export] Hint Resolve adds_ret adds_raise adds_lift adds_time adds_bind
  keeps_ret keeps_raise keeps_lift keeps_emit keeps_time keeps_get keeps_query
  keeps_bind : effects.

Lemma try_endpoints_effects env dl path eps :
  adds http_event (try_endpoints env dl path eps) /\
  keeps_chain (try_endpoints env dl path eps).
Proof.
  induction eps as [|ep eps [IHa IHk]]; cbn [try_endpoints].
  - split; auto with effects.
  - split.
    + apply adds_bind; [apply adds_get; exact I|]. intros [|code body].
      * apply adds_bind; auto with effects. intros t.
        destruct (dl <? t); auto with effects.
      * destruct (code =? 200); auto with effects.
        apply adds_bind; auto with effects. intros t. destruct (dl <? t); auto with effects.
    + apply keeps_bind; auto with effects. intros [|code body].
      * apply keeps_bind; auto with effects. intros t. destruct (dl <? t); auto with effects.
      * destruct (code =? 200); auto with effects.
        apply keeps_bind; auto with effects. intros t. destruct (dl <? t); auto with effects.
Qed.

Lemma fetch_from_any_endpoint_effects env path :
  adds http_event (fetch_from_any_endpoint env path) /\
  keeps_chain (fetch_from_any_endpoint env path).
Proof.
  unfold fetch_from_any_endpoint, fetch_from_any_endpoint_in. split.
  - apply adds_bind; auto with effects. intros t0. apply try_endpoints_effects.
  - apply keeps_bind; auto with effects. intros t0. apply try_endpoints_effects.
Qed.

(** ** fetch_from_any_endpoint *)

Lemma try_endpoints_spec env dl path eps :
  forall s r s', try_endpoints env dl path eps s = (r, s') -> failover_run env dl path eps s r s'.
Proof.
  induction eps as [|ep eps IH]; intros s r s' E; cbn [try_endpoints] in E.
  - injection E as <- <-. exists O. cbn. rewrite app_nil_r.
    repeat split; try lia; auto.
  - unfold bind at 1, requests_get in E.
    set (s1 := mkSt (st_chain s) (S (st_requests s)) (st_clock_reads s)
                 (st_trace s ++ [EvHttpGet (ep ++ path)%string])) in E.
    (* the branch taken after a failed attempt *)
    assert (Hnext : http_failed (env_http env (st_requests s) (ep ++ path)%string) ->
      (t <- time_time env ;;
       if dl <? t then raise NO_RESPONSE else try_endpoints env dl path eps) s1 = (r, s') ->
      failover_run env dl path (ep :: eps) s r s').
    { intros Hf E'. unfold bind, time_time in E'. cbn [st_clock_reads s1] in E'.
      destruct (Z.ltb_spec dl (env_clock env (st_clock_reads s))) as [Hl|Hl].
      - injection E' as <- <-. exists 1%nat. cbn.
        split; [lia|]. split; [reflexivity|]. split; [intros j Hj; lia|].
        split; [reflexivity|]. split.
        + intros j Hj. replace j with O by lia. rewrite Nat.add_0_r. exact Hf.
        + right. rewrite Nat.add_0_r. split; [lia | exact Hl].
      - apply IH in E'. destruct E' as [k [Hk [Ht [Hpre Hr]]]].
        cbn [st_requests st_clock_reads st_trace s1] in Ht, Hpre, Hr.
        exists (S k). split; [cbn; lia|]. split.
        { rewrite Ht. cbn [firstn map]. rewrite <- app_assoc. reflexivity. }
        split.
        { intros [|j] Hj.
          - rewrite !Nat.add_0_r. split; [exact Hf | lia].
          - rewrite <- !plus_n_Sm. apply Hpre. lia. }
        destruct r as [body|e].
        + destruct Hr as [Hk0 Hb]. split; [lia|].
          replace (S k - 1)%nat with (S (k - 1)) by lia. rewrite <- plus_n_Sm. exact Hb.
        + destruct Hr as [He [Hall Hend]]. split; [exact He|]. split.
          { intros [|j] Hj; [rewrite Nat.add_0_r; exact Hf|].
            rewrite <- plus_n_Sm. apply Hall. lia. }
          destruct Hend as [Hend|[Hk0 Hlate]]; [left; cbn; lia|].
          right. split; [lia|].
          replace (S k - 1)%nat with (S (k - 1)) by lia. rewrite <- plus_n_Sm. exact Hlate. }
    destruct (env_http env (st_requests s) (ep ++ path)%string) as [|code body] eqn:Eh.
    + apply Hnext; [exact I | exact E].
    + destruct (Z.eqb_spec code 200) as [->|Hc].
      * injection E as <- <-. exists 1%nat. cbn. rewrite Nat.add_0_r, Eh.
        split; [lia|]. split; [reflexivity|]. split; [intros j Hj; lia|].
        split; [lia | reflexivity].
      * apply Hnext; [exact Hc | exact E].
Qed.

(** C6 (as amended): [fetch_from_any_endpoint] tries the endpoints in list
    order, each at most once; the [j]-th attempt gets [out j]; it returns the
    body of the first [200] response; it goes on after a transport error or
    a non-[200] status unless the deadline (first clock reading plus the
    budget) has passed, and raises once the list is exhausted or the
    deadline is passed.  In particular for [[A; B; C]] where [A] and [B]
    fail, the deadline has not passed when their failures are checked, and
    [C] answers [200], the result is [C]'s body and each endpoint is
    requested exactly once. *)
Theorem fetch_from_any_endpoint_failover (env : Env) (eps : list string) (path : string)
    (s : St) (r : Res Json) (s' : St) :
  fetch_from_any_endpoint_in env eps path s = (r, s') ->
  let dl := env_clock env (st_clock_reads s) + HTTP_FETCH_TIMEOUT in
  let out j := env_http env (st_requests s + j) (nth j eps EmptyString ++ path)%string in
  let clock j := env_clock env (S (st_clock_reads s) + j) in
  failover_run env dl path eps (after_clock_read s) r s' /\
  (forall A B C body, eps = [A; B; C] ->
     http_failed (out 0%nat) -> clock 0%nat <= dl ->
     http_failed (out 1%nat) -> clock 1%nat <= dl ->
     out 2%nat = HttpResponse 200 body ->
     r = Ok body /\
     st_trace s' = st_trace s ++ [EvHttpGet (A ++ path)%string; EvHttpGet (B ++ path)%string;
                                  EvHttpGet (C ++ path)%string]).
Proof.
  intros E dl out clock.
  unfold fetch_from_any_endpoint_in, bind at 1, time_time in E.
  apply try_endpoints_spec in E. fold (after_clock_read s) in E.
  split; [exact E|].
  intros A B C body -> F0 T0 F1 T1 O2.
  destruct E as [k [Hk [Ht [Hpre Hr]]]]. cbn [st_requests st_clock_reads st_trace after_clock_read]
    in Ht, Hpre, Hr.
  subst out clock dl. cbv beta in *. cbn [List.length] in Hk.
  assert (Hok : r = Ok body /\ k = 3%nat).
  { destruct r as [b|e].
    - destruct Hr as [Hk0 Hb].
      destruct (Nat.eq_dec k 1) as [->|].
      { change (1 - 1)%nat with 0%nat in Hb. rewrite Hb in F0. exfalso; apply F0; reflexivity. }
      destruct (Nat.eq_dec k 2) as [->|].
      { change (2 - 1)%nat with 1%nat in Hb. rewrite Hb in F1. exfalso; apply F1; reflexivity. }
      replace k with 3%nat in * by lia. change (3 - 1)%nat with 2%nat in Hb. rewrite O2 in Hb.
      injection Hb as ->. auto.
    - destruct Hr as [_ [Hall Hend]].
      assert (H2 : ~ http_failed (env_http env (st_requests s + 2) (nth 2 [A; B; C] EmptyString ++ path)%string))
        by (rewrite O2; intros H; apply H; reflexivity).
      destruct Hend as [->|[Hk0 Hlate]].
      + exfalso. apply H2, Hall. cbn [List.length]; lia.
      + destruct (Nat.eq_dec k 1) as [->|]; [change (1 - 1)%nat with 0%nat in Hlate; lia|].
        destruct (Nat.eq_dec k 2) as [->|]; [change (2 - 1)%nat with 1%nat in Hlate; lia|].
        exfalso. apply H2, Hall. lia. }
  destruct Hok as [-> ->]. split; [reflexivity|]. rewrite Ht. reflexivity.
Qed.

Lemma fetch_from_any_endpoint_failover_witness :
  fst (fetch_from_any_endpoint_in (abc_env 5) abc_endpoints "/p"%string empty_st) = Ok sample_body.
Proof.
  destruct (fetch_from_any_endpoint_in (abc_env 5) abc_endpoints "/p"%string empty_st) as [r s'] eqn:E.
  cbn [fst].
  apply (proj1 (proj2 (fetch_from_any_endpoint_failover _ _ _ _ _ _ E)
                 "https://a"%string "https://b"%string "https://c"%string sample_body eq_refl
                 I ltac:(vm_compute; intro H; discriminate H) ltac:(vm_compute; intro H; discriminate H)
                 ltac:(vm_compute; intro H; discriminate H) eq_refl)).
Defined.

(** C6 as stated: with [A] and [B] failing and [C] answering [200], the
    claim promises [C]'s body; when [A]'s failure comes back after the
    deadline the loop stops and raises without requesting [C]. *)
Lemma fetch_from_any_endpoint_deadline_before_C :
  env_http (abc_env 10001) 2 "https://c/p"%string = HttpResponse 200 sample_body /\
  fetch_from_any_endpoint_in (abc_env 10001) abc_endpoints "/p"%string empty_st =
    (Err NO_RESPONSE, mkSt (mkChain None None) 1 2 [EvHttpGet "https://a/p"%string]).
Proof. split; reflexivity. Qed.

(** ** try_into_pulse *)

Lemma try_into_pulse_ok (resp : Json) (p : Pulse Json) :
  try_into_pulse resp = Ok p <-> pulse_fields resp p.
Proof.
  unfold try_into_pulse, pulse_fields, getitem. split.
  - intros E.
    destruct resp as [| | | | |kvs]; cbn [res_bind] in E; try discriminate E.
    destruct (lookup_last "round" kvs) as [rd|] eqn:L1; cbn [res_bind] in E; [|discriminate E].
    destruct (lookup_last "randomness" kvs) as [[|?|?|rs|?|?]|] eqn:L2;
      cbn [res_bind unhexlify] in E; try discriminate E.
    destruct (unhexlify_str rs) as [rb|] eqn:Er; cbn [res_bind] in E; [|discriminate E].
    destruct (lookup_last "signature" kvs) as [[|?|?|ss|?|?]|] eqn:L3;
      cbn [res_bind unhexlify] in E; try discriminate E.
    destruct (unhexlify_str ss) as [sb|] eqn:Es; cbn [res_bind] in E; [|discriminate E].
    destruct (Nat.eqb_spec (List.length rb) 32) as [Hl|Hl]; cbn [negb] in E; [|discriminate E].
    injection E as <-. exists kvs, rs, ss. cbn [round randomness signature]. auto 10.
  - intros (kvs & rs & ss & -> & H1 & H2 & H3 & H4 & H5 & H6).
    rewrite H1, H2. cbn [res_bind unhexlify]. rewrite H3. cbn [res_bind].
    rewrite H4. cbn [res_bind unhexlify]. rewrite H5. cbn [res_bind].
    rewrite H6. cbn [Nat.eqb negb]. destruct p; reflexivity.
Qed.

Lemma try_into_pulse_round (resp : Json) (p : Pulse Json) :
  try_into_pulse resp = Ok p -> getitem resp "round" = Ok (round p).
Proof.
  intros E. apply try_into_pulse_ok in E.
  destruct E as (kvs & rs & ss & -> & H1 & _). cbn [getitem]. rewrite H1. reflexivity.
Qed.

(** ** The cycle *)

Lemma bind_ok {A B} (m : M A) (k : A -> M B) s a s1 :
  m s = (Ok a, s1) -> bind m k s = k a s1.
Proof. intros E. unfold bind. rewrite E. reflexivity. Qed.

Lemma bind_inv {A B} (m : M A) (k : A -> M B) s r s' :
  bind m k s = (r, s') ->
  (exists a s1, m s = (Ok a, s1) /\ k a s1 = (r, s')) \/
  (exists e, m s = (Err e, s') /\ r = Err e).
Proof.
  unfold bind. destruct (m s) as [[a|e] s1]; intros E.
  - left. exists a, s1. auto.
  - right. injection E as <- <-. exists e. auto.
Qed.

Lemma round_requests_app (a b : list event) :
  round_requests (a ++ b) = round_requests a ++ round_requests b.
Proof. apply flat_map_app. Qed.

Lemma round_requests_no_round (evs : list event) :
  Forall no_round evs -> round_requests evs = [].
Proof.
  induction 1 as [|ev evs Hev _ IH]; [reflexivity|].
  destruct ev; cbn in Hev |- *; first [contradiction | exact IH].
Qed.

Lemma round_requests_fetch (q : Z) (evs : list event) :
  round_requests (EvFetchRound q :: evs) = q :: round_requests evs.
Proof. reflexivity. Qed.

Lemma http_no_round (evs : list event) : Forall http_event evs -> Forall no_round evs.
Proof. apply Forall_impl. intros []; cbn; tauto. Qed.

Lemma http_before_payload (evs : list event) :
  Forall http_event evs -> Forall before_payload evs.
Proof. apply Forall_impl. intros []; cbn; tauto. Qed.

Lemma pre_round_no_round (evs : list event) : Forall pre_round evs -> Forall no_round evs.
Proof. apply Forall_impl. intros []; cbn; tauto. Qed.

Lemma pre_round_before_payload (evs : list event) :
  Forall pre_round evs -> Forall before_payload evs.
Proof. apply Forall_impl. intros []; cbn; tauto. Qed.

Lemma fetch_drand_latest_effects env :
  adds pre_round (fetch_drand_latest env) /\ keeps_chain (fetch_drand_latest env).
Proof.
  unfold fetch_drand_latest. destruct (fetch_from_any_endpoint_effects env
    ("/" ++ CHAIN_HASH ++ "/public/latest")%string) as [Ha Hk]. split.
  - apply adds_bind; [apply adds_emit; exact I|]. intros _.
    eapply adds_mono; [|exact Ha]. intros []; cbn; tauto.
  - apply keeps_bind; auto with effects.
Qed.

Lemma gate_part_effects env cb :
  adds pre_round (gate_part env cb) /\ keeps_chain (gate_part env cb).
Proof.
  destruct (fetch_drand_latest_effects env) as [La Lk].
  unfold gate_part. split.
  - apply adds_bind; [apply adds_query; exact I|]. intros nua.
    destruct (cb <? nua); [auto with effects|].
    apply adds_bind; [apply adds_query; exact I|]. intros lsr.
    apply adds_bind; [exact La|]. intros resp.
    apply adds_bind; auto with effects. intros p.
    apply adds_bind; auto with effects. intros cr. cbv zeta.
    destruct (cr <=? _); [|auto with effects].
    apply adds_bind; [apply adds_emit; exact I|auto with effects].
  - apply keeps_bind; auto with effects. intros nua.
    destruct (cb <? nua); [auto with effects|].
    apply keeps_bind; auto with effects. intros lsr.
    apply keeps_bind; [exact Lk|]. intros resp.
    apply keeps_bind; auto with effects. intros p.
    apply keeps_bind; auto with effects. intros cr. cbv zeta.
    destruct (cr <=? _); auto with effects.
Qed.

Lemma gate_part_some env cb s lsr rtf s' :
  gate_part env cb s = (Ok (Some (lsr, rtf)), s') ->
  exists latest, lsr < latest /\ rtf = Z.min (latest - lsr) MAX_PULSES_TO_FETCH.
Proof.
  unfold gate_part. intros E.
  apply bind_inv in E as [(nua & s1 & _ & E)|(e & _ & ?)]; [|discriminate]. cbv beta in E.
  destruct (cb <? nua); [injection E; discriminate|].
  apply bind_inv in E as [(lsr0 & s2 & _ & E)|(e & _ & ?)]; [|discriminate]. cbv beta in E.
  apply bind_inv in E as [(resp & s3 & _ & E)|(e & _ & ?)]; [|discriminate]. cbv beta in E.
  apply bind_inv in E as [(p & s4 & _ & E)|(e & _ & ?)]; [|discriminate]. cbv beta in E.
  apply bind_inv in E as [(cr & s5 & _ & E)|(e & _ & ?)]; [|discriminate]. cbv beta zeta in E.
  destruct (Z.leb_spec cr (if lsr0 =? 0 then cr - 1 else lsr0)) as [Hle|Hlt].
  - apply bind_inv in E as [(u & s6 & _ & E)|(e & _ & ?)]; [|discriminate].
    injection E; discriminate.
  - injection E as Hl Hr _. exists cr. split; [rewrite <- Hl; exact Hlt|].
    rewrite <- Hr, <- Hl. reflexivity.
Qed.

Lemma gate_part_rounds env cb s lsr rtf s' :
  gate_part env cb s = (Ok (Some (lsr, rtf)), s') -> 1 <= rtf <= 50.
Proof.
  intros E. destruct (gate_part_some _ _ _ _ _ _ E) as [cr [Hlt ->]].
  unfold MAX_PULSES_TO_FETCH. lia.
Qed.

Lemma gate_part_below env cb s :
  cb < match storage (st_chain s) NextUnsignedAt with Some v => v | None => 0 end ->
  gate_part env cb s = (Ok None, log s (EvQuery NextUnsignedAt)).
Proof.
  intros H. unfold gate_part.
  rewrite (bind_ok _ _ _ _ _ (eq_refl : query NextUnsignedAt s = (Ok _, log s (EvQuery NextUnsignedAt)))).
  cbv beta. rewrite (proj2 (Z.ltb_lt _ _) H). reflexivity.
Qed.

Lemma gate_part_above env cb s resp s3 p latest :
  let nua := match storage (st_chain s) NextUnsignedAt with Some v => v | None => 0 end in
  let lsr0 := match storage (st_chain s) LastStoredRound with Some v => v | None => 0 end in
  nua <= cb ->
  fetch_drand_latest env (log (log s (EvQuery NextUnsignedAt)) (EvQuery LastStoredRound)) =
    (Ok resp, s3) ->
  try_into_pulse resp = Ok p -> py_int (round p) = Ok latest ->
  gate_part env cb s =
    (let lsr := if lsr0 =? 0 then latest - 1 else lsr0 in
     if latest <=? lsr then (Ok None, log s3 (EvPrint MsgNoNewRounds))
     else (Ok (Some (lsr, Z.min (latest - lsr) MAX_PULSES_TO_FETCH)), s3)).
Proof.
  intros nua lsr0 Hge Hf Ht Hr. unfold gate_part.
  rewrite (bind_ok _ _ _ _ _ (eq_refl : query NextUnsignedAt s = (Ok nua, log s (EvQuery NextUnsignedAt)))).
  cbv beta. rewrite (proj2 (Z.ltb_ge _ _) Hge).
  rewrite (bind_ok _ _ _ _ _ (eq_refl : query LastStoredRound (log s (EvQuery NextUnsignedAt)) =
     (Ok lsr0, log (log s (EvQuery NextUnsignedAt)) (EvQuery LastStoredRound)))).
  cbv beta. rewrite (bind_ok _ _ _ _ _ Hf). cbv beta.
  assert (Hl1 : lift (try_into_pulse resp) s3 = (Ok p, s3)) by (unfold lift; rewrite Ht; reflexivity).
  rewrite (bind_ok _ _ _ _ _ Hl1). cbv beta.
  assert (Hl2 : lift (py_int (round p)) s3 = (Ok latest, s3)) by (unfold lift; rewrite Hr; reflexivity).
  rewrite (bind_ok _ _ _ _ _ Hl2). cbv beta zeta.
  destruct (latest <=? (if lsr0 =? 0 then latest - 1 else lsr0)); reflexivity.
Qed.

Lemma fetch_drand_by_round_spec env q s r s' :
  fetch_drand_by_round env q s = (r, s') ->
  st_chain s' = st_chain s /\
  (exists evs, st_trace s' = st_trace s ++ EvFetchRound q :: evs /\ Forall http_event evs) /\
  (forall resp, r = Ok resp -> exists n ep, In ep DRAND_ENDPOINTS /\
     env_http env n (ep ++ round_path q)%string = HttpResponse 200 resp).
Proof.
  intros E. unfold fetch_drand_by_round, bind at 1, emit in E.
  destruct (fetch_from_any_endpoint_effects env (round_path q)) as [Ha Hk].
  split; [exact (Hk _ _ _ E)|]. split.
  - destruct (Ha _ _ _ E) as [evs [T F]]. exists evs. split; [|exact F].
    rewrite T. cbn [log st_trace]. rewrite <- app_assoc. reflexivity.
  - intros resp ->.
    unfold fetch_from_any_endpoint, fetch_from_any_endpoint_in, bind at 1, time_time in E.
    apply try_endpoints_spec in E. destruct E as [k [Hk' [_ [_ [Hk0 Hb]]]]].
    eexists _, (nth (k - 1) DRAND_ENDPOINTS EmptyString). split; [apply nth_In; lia|].
    exact Hb.
Qed.

Lemma fetch_rounds_spec env rs : forall acc s r s',
  fetch_rounds env rs acc s = (r, s') ->
  st_chain s' = st_chain s /\
  exists evs, st_trace s' = st_trace s ++ evs /\ Forall before_payload evs /\
    match r with
    | Ok ps => round_requests evs = rs /\
               exists qs, ps = acc ++ qs /\ Forall2 (served env) rs qs
    | Err _ => exists k, (k < List.length rs)%nat /\ round_requests evs = firstn (S k) rs
    end.
Proof.
  induction rs as [|q rs IH]; intros acc s r s' E; cbn [fetch_rounds] in E.
  - injection E as <- <-. split; [reflexivity|]. exists []. rewrite app_nil_r.
    split; [reflexivity|]. split; [constructor|]. split; [reflexivity|].
    exists []. rewrite app_nil_r. auto.
  - apply bind_inv in E as [(resp & s1 & Ef & E)|(e & Ef & ->)].
    + destruct (fetch_drand_by_round_spec _ _ _ _ _ Ef) as [C1 [[evs1 [T1 F1]] Hsrv]].
      destruct (Hsrv resp eq_refl) as (n & ep & Hin & Hhttp). cbv beta in E.
      destruct (try_into_pulse resp) as [p|e] eqn:Et.
      * rewrite (bind_ok _ _ _ _ _ (eq_refl : lift (Ok p) s1 = (Ok p, s1))) in E. cbv beta in E.
        destruct (IH _ _ _ _ E) as [C2 (evs2 & T2 & F2 & Hr)].
        split; [congruence|]. exists ((EvFetchRound q :: evs1) ++ evs2).
        split; [rewrite T2, T1, <- app_assoc; reflexivity|].
        split.
        { apply Forall_app. split; [constructor; [exact I|apply http_before_payload, F1]|exact F2]. }
        rewrite round_requests_app, round_requests_fetch.
        rewrite (round_requests_no_round _ (http_no_round _ F1)). cbn [app].
        destruct r as [ps|e].
        -- destruct Hr as [Hrr (qs & -> & Hqs)]. rewrite Hrr. split; [reflexivity|].
           exists (p :: qs). rewrite <- app_assoc. split; [reflexivity|].
           constructor; [|exact Hqs]. exists n, ep, resp. auto.
        -- destruct Hr as [k [Hk Hrr]]. exists (S k). rewrite Hrr.
           cbn [List.length firstn]. split; [lia|reflexivity].
      * unfold lift in E. injection E as <- <-.
        split; [exact C1|]. exists (EvFetchRound q :: evs1). split; [exact T1|].
        split; [constructor; [exact I|apply http_before_payload, F1]|].
        exists O. rewrite round_requests_fetch, (round_requests_no_round _ (http_no_round _ F1)).
        cbn [List.length firstn]. split; [lia|reflexivity].
    + destruct (fetch_drand_by_round_spec _ _ _ _ _ Ef) as [C1 [[evs1 [T1 F1]] _]].
      split; [exact C1|]. exists (EvFetchRound q :: evs1). split; [exact T1|].
      split; [constructor; [exact I|apply http_before_payload, F1]|].
      exists O. rewrite round_requests_fetch, (round_requests_no_round _ (http_no_round _ F1)).
      cbn [List.length firstn]. split; [lia|reflexivity].
Qed.

Lemma adds_sign env (P : event -> Prop) msg : P (EvSign msg) -> adds P (keypair_sign env msg).
Proof. intros H s r s' E. injection E as <- <-. exists [EvSign msg]. cbn. auto. Qed.

Lemma adds_submit env (P : event -> Prop) call :
  P (EvSubmit call) -> adds P (submit_extrinsic env call).
Proof.
  intros H s r s' E. unfold submit_extrinsic in E.
  destruct (env_submit env call (st_chain s)) as [r0 c']. injection E as <- <-.
  exists [EvSubmit call]. cbn. auto.
Qed.

Lemma submit_part_spec env cb lsr rtf ps s r s' :
  submit_part env cb lsr rtf ps s = (r, s') ->
  exists evs, st_trace s' = st_trace s ++ evs /\ Forall no_round evs /\
    forall pl, In (EvEncode pl) evs -> pl = mkPayload cb ps (env_public env) /\ ps <> [].
Proof.
  intros E. destruct ps as [|p ps'].
  - cbn [submit_part emit] in E. injection E as <- <-. exists [EvPrint MsgNoNewPulses].
    split; [reflexivity|]. split; [repeat constructor|].
    intros pl [H|[]]. discriminate H.
  - unfold submit_part, bind at 1, emit in E.
    assert (Hrest : adds after_encode
      (encoded_payload <- lift (encode_pulses_payload (mkPayload cb (p :: ps') (env_public env))) ;;
       signature_bytes <- keypair_sign env encoded_payload ;;
       receipt <- submit_extrinsic env
         (mkCall cb (map pulse_for_call (p :: ps')) ("0x" ++ bytes_hex (env_public env))%string
            ("0x" ++ bytes_hex signature_bytes)%string) ;;
       if is_success receipt then
         emit (EvPrint (MsgSubmitted (lsr + 1) (lsr + rtf)))
       else emit (EvPrint (MsgFailed (error_message receipt))))).
    { apply adds_bind; auto with effects. intros enc.
      apply adds_bind; [apply adds_sign; exact I|]. intros sig.
      apply adds_bind; [apply adds_submit; exact I|]. intros rc.
      destruct (is_success rc); apply adds_emit; exact I. }
    destruct (Hrest _ _ _ E) as [evs [T F]].
    exists (EvEncode (mkPayload cb (p :: ps') (env_public env)) :: evs). split.
    { rewrite T. cbn [log st_trace]. rewrite <- app_assoc. reflexivity. }
    split.
    { constructor; [exact I|]. eapply Forall_impl; [|exact F]. intros []; cbn; tauto. }
    intros pl [H|H].
    + injection H as <-. split; [reflexivity|discriminate].
    + rewrite Forall_forall in F. destruct (F _ H).
Qed.

Lemma py_range_consecutive (a n : Z) :
  0 <= n -> py_range a (a + n) = consecutive a (Z.to_nat n).
Proof.
  intros H. unfold py_range, consecutive. replace (a + n - a) with n by lia. reflexivity.
Qed.

Lemma length_consecutive (a : Z) (n : nat) : List.length (consecutive a n) = n.
Proof. unfold consecutive. rewrite length_map, length_seq. reflexivity. Qed.

Lemma submit_new_pulses_after_gate env cb s lsr rtf s3 r s' :
  gate_part env cb s = (Ok (Some (lsr, rtf)), s3) ->
  submit_new_pulses env cb s = (r, s') ->
  let target := py_range (lsr + 1) (lsr + 1 + rtf) in
  exists evs, st_trace s' = st_trace s3 ++ evs /\
    (round_requests evs = target \/
     exists e k, r = Err e /\ (k < List.length target)%nat /\
                 round_requests evs = firstn (S k) target).
Proof.
  intros G E target. unfold submit_new_pulses in E. rewrite (bind_ok _ _ _ _ _ G) in E.
  cbv beta iota in E.
  apply bind_inv in E as [(ps & s4 & Ef & E)|(e & Ef & ->)].
  - destruct (fetch_rounds_spec _ _ _ _ _ _ Ef) as [_ (evs2 & T2 & _ & Hrr & _)].
    destruct (submit_part_spec _ _ _ _ _ _ _ _ E) as (evs3 & T3 & F3 & _).
    exists (evs2 ++ evs3). split; [rewrite T3, T2, app_assoc; reflexivity|].
    left. rewrite round_requests_app, (round_requests_no_round _ F3), Hrr, app_nil_r.
    reflexivity.
  - destruct (fetch_rounds_spec _ _ _ _ _ _ Ef) as [_ (evs2 & T2 & _ & k & Hk & Hrr)].
    exists evs2. split; [exact T2|]. right. exists e, k. auto.
Qed.

Lemma Forall2_map_eq {A B C} (R : A -> B -> Prop) (f : B -> C) (g : A -> C) xs ys :
  Forall2 R xs ys -> (forall x y, R x y -> f y = g x) -> map f ys = map g xs.
Proof.
  induction 1 as [|x y xs ys Hxy _ IH]; intros H; [reflexivity|].
  cbn [map]. rewrite (H _ _ Hxy), IH; auto.
Qed.

Lemma echo_run_payload :
  In (EvFetchRound 10) (st_trace (snd (submit_new_pulses echo_env 0 echo_st))) /\
  In (EvEncode echo_payload) (st_trace (snd (submit_new_pulses echo_env 0 echo_st))).
Proof. split; vm_compute; repeat (first [left; reflexivity | right]). Qed.



Lemma try_into_pulse_accepts (kvs : list (string * Json)) j rs r ss g :
  lookup_last "round" kvs = Some j ->
  lookup_last "randomness" kvs = Some (JStr rs) -> unhexlify_str rs = Ok r ->
  lookup_last "signature" kvs = Some (JStr ss) -> unhexlify_str ss = Ok g ->
  List.length r = 32%nat ->
  try_into_pulse (JObj kvs) = Ok (mkPulse j r g).
Proof.
  intros H1 H2 H3 H4 H5 H6. apply try_into_pulse_ok.
  exists kvs, rs, ss. cbn [round randomness signature]. auto 10.
Qed.

(** ** Which requests a cycle's pulses come from *)

Lemma try_endpoints_window env dl path eps : forall s r s',
  try_endpoints env dl path eps s = (r, s') ->
  (st_requests s <= st_requests s')%nat /\
  forall body, r = Ok body -> exists n ep, (st_requests s <= n < st_requests s')%nat /\
    In ep eps /\ env_http env n (ep ++ path)%string = HttpResponse 200 body.
Proof.
  induction eps as [|ep eps IH]; intros s r s' E; cbn [try_endpoints] in E.
  - injection E as <- <-. split; [lia|]. intros body H. exfalso; discriminate H.
  - unfold bind at 1, requests_get in E.
    set (s1 := mkSt (st_chain s) (S (st_requests s)) (st_clock_reads s)
                 (st_trace s ++ [EvHttpGet (ep ++ path)%string])) in E.
    assert (Hnext :
      (t <- time_time env ;;
       if dl <? t then raise NO_RESPONSE else try_endpoints env dl path eps) s1 = (r, s') ->
      (st_requests s <= st_requests s')%nat /\
      forall body, r = Ok body -> exists n ep', (st_requests s <= n < st_requests s')%nat /\
        In ep' (ep :: eps) /\ env_http env n (ep' ++ path)%string = HttpResponse 200 body).
    { intros E'. unfold bind, time_time in E'.
      destruct (dl <? env_clock env (st_clock_reads s1)).
      - injection E' as <- <-. cbn [s1 st_requests]. split; [lia|].
        intros body H. exfalso; discriminate H.
      - apply IH in E' as [Hm Hw]. cbn [s1 st_requests] in Hm, Hw. split; [lia|].
        intros body Hb. destruct (Hw body Hb) as (n & ep' & Hn & Hin & Hh).
        exists n, ep'. split; [lia|]. split; [right; exact Hin|exact Hh]. }
    destruct (env_http env (st_requests s) (ep ++ path)%string) as [|code body] eqn:Eh.
    + apply Hnext, E.
    + destruct (Z.eqb_spec code 200) as [->|Hc].
      * injection E as <- <-. cbn [s1 st_requests]. split; [lia|].
        intros b Hb. injection Hb as <-. exists (st_requests s), ep.
        split; [lia|]. split; [left; reflexivity|exact Eh].
      * apply Hnext, E.
Qed.

Lemma fetch_drand_by_round_window env q s r s' :
  fetch_drand_by_round env q s = (r, s') ->
  (st_requests s <= st_requests s')%nat /\
  forall resp, r = Ok resp -> exists n ep, (st_requests s <= n < st_requests s')%nat /\
    In ep DRAND_ENDPOINTS /\ env_http env n (ep ++ round_path q)%string = HttpResponse 200 resp.
Proof.
  intros E. unfold fetch_drand_by_round, bind at 1, emit in E.
  unfold fetch_from_any_endpoint, fetch_from_any_endpoint_in, bind at 1, time_time in E.
  apply try_endpoints_window in E. cbn [log st_requests] in E. exact E.
Qed.

Lemma fetch_rounds_window env rs : forall acc s r s',
  fetch_rounds env rs acc s = (r, s') ->
  (st_requests s <= st_requests s')%nat /\
  forall ps, r = Ok ps -> exists qs ns, ps = acc ++ qs /\
    List.length qs = List.length rs /\ List.length ns = List.length rs /\
    StronglySorted lt ns /\ Forall (fun n => st_requests s <= n < st_requests s')%nat ns /\
    forall i n q p, nth_error ns i = Some n -> nth_error rs i = Some q ->
      nth_error qs i = Some p -> served_at env n q p.
Proof.
  induction rs as [|q rs IH]; intros acc s r s' E; cbn [fetch_rounds] in E.
  - injection E as <- <-. split; [lia|]. intros ps Hps. injection Hps as <-.
    exists [], []. rewrite app_nil_r. split; [reflexivity|]. split; [reflexivity|].
    split; [reflexivity|]. split; [constructor|]. split; [constructor|].
    intros [|i] n q p H; cbn in H; exfalso; discriminate H.
  - apply bind_inv in E as [(resp & s1 & Ef & E)|(e & Ef & ->)].
    + destruct (fetch_drand_by_round_window _ _ _ _ _ Ef) as [M1 W1].
      destruct (W1 resp eq_refl) as (n0 & ep & Hn0 & Hin & Hh). cbv beta in E.
      destruct (try_into_pulse resp) as [p|e] eqn:Et.
      * rewrite (bind_ok _ _ _ _ _ (eq_refl : lift (Ok p) s1 = (Ok p, s1))) in E. cbv beta in E.
        destruct (IH _ _ _ _ E) as [M2 W2]. split; [lia|].
        intros ps Hps. destruct (W2 ps Hps) as (qs & ns & -> & Hl1 & Hl2 & Hs & Hf & Hsv).
        exists (p :: qs), (n0 :: ns). split; [rewrite <- app_assoc; reflexivity|].
        cbn [List.length]. split; [lia|]. split; [lia|]. split.
        { constructor; [exact Hs|]. eapply Forall_impl; [|exact Hf]. cbv beta. intros m Hm. lia. }
        split.
        { constructor; [lia|]. eapply Forall_impl; [|exact Hf]. cbv beta. intros m Hm. lia. }
        intros [|i] n q' p'; cbn [nth_error].
        -- intros H1 H2 H3. injection H1 as <-. injection H2 as <-. injection H3 as <-.
           exists ep, resp. auto.
        -- apply Hsv.
      * unfold lift in E. injection E as <- <-. split; [exact M1|].
        intros ps H. exfalso; discriminate H.
    + destruct (fetch_drand_by_round_window _ _ _ _ _ Ef) as [M1 _]. split; [exact M1|].
      intros ps H. exfalso; discriminate H.
Qed.

Lemma keeps_requests_bind {A B} (m : M A) (k : A -> M B) :
  keeps_requests m -> (forall a, keeps_requests (k a)) -> keeps_requests (bind m k).
Proof.
  intros Hm Hk s r s' E. apply bind_inv in E as [(a & s1 & E1 & E2)|(e & E1 & _)].
  - rewrite (Hk _ _ _ _ E2). exact (Hm _ _ _ E1).
  - exact (Hm _ _ _ E1).
Qed.

Lemma keeps_requests_emit ev : keeps_requests (emit ev).
Proof. intros s r s' E. injection E as _ <-. reflexivity. Qed.

Lemma keeps_requests_lift {A} (x : Res A) : keeps_requests (lift x).
Proof. intros s r s' E. injection E as _ <-. reflexivity. Qed.

Lemma submit_part_requests env cb lsr rtf ps :
  keeps_requests (submit_part env cb lsr rtf ps).
Proof.
  destruct ps as [|p ps]; [apply keeps_requests_emit|]. unfold submit_part.
  apply keeps_requests_bind; [apply keeps_requests_emit|]. intros _.
  apply keeps_requests_bind; [apply keeps_requests_lift|]. intros enc.
  apply keeps_requests_bind; [intros s r s' E; injection E as _ <-; reflexivity|]. intros sig.
  apply keeps_requests_bind.
  - intros s r s' E. unfold submit_extrinsic in E.
    destruct (env_submit env _ (st_chain s)). injection E as _ <-. reflexivity.
  - intros rc. destruct (is_success rc); apply keeps_requests_emit.
Qed.

Lemma nth_error_consecutive (a : Z) (n i : nat) :
  (i < n)%nat -> nth_error (consecutive a n) i = Some (a + Z.of_nat i).
Proof.
  intros H. unfold consecutive. rewrite nth_error_map, nth_error_seq.
  destruct (Nat.ltb_spec i n); [reflexivity|lia].
Qed.

(** The pulses of a payload a cycle builds: pulse [i] is what request
    [ns_i] of this cycle, one to a drand endpoint for round [lsr + 1 + i],
    was answered with, where [(lsr, rtf)] is the gate's decision; the
    request numbers increase. *)
Lemma submit_new_pulses_sources env cb s r s' :
  submit_new_pulses env cb s = (r, s') ->
  forall evs pl, st_trace s' = st_trace s ++ evs -> In (EvEncode pl) evs ->
  exists lsr rtf s1 ns,
    gate_part env cb s = (Ok (Some (lsr, rtf)), s1) /\ 1 <= rtf <= 50 /\
    pl = mkPayload cb (pulses pl) (env_public env) /\
    List.length (pulses pl) = Z.to_nat rtf /\ List.length ns = Z.to_nat rtf /\
    StronglySorted lt ns /\
    forall i n p, nth_error ns i = Some n -> nth_error (pulses pl) i = Some p ->
      (st_requests s1 <= n < st_requests s')%nat /\ served_at env n (lsr + 1 + Z.of_nat i) p.
Proof.
  intros E evs pl T Hin. unfold submit_new_pulses in E.
  destruct (gate_part_effects env cb) as [Ga Gk].
  assert (Hnot : forall evs', Forall before_payload evs' -> ~ In (EvEncode pl) evs').
  { intros evs' F' H'. rewrite Forall_forall in F'. exact (F' _ H'). }
  apply bind_inv in E as [(d & s1 & Eg & E)|(e & Eg & _)].
  - destruct (Ga _ _ _ Eg) as [evs1 [T1 F1]]. cbv beta in E.
    destruct d as [[lsr rtf]|].
    + pose proof (gate_part_rounds _ _ _ _ _ _ Eg) as Hr.
      apply bind_inv in E as [(ps & s2 & Ef & E)|(e & Ef & _)].
      * destruct (fetch_rounds_spec _ _ _ _ _ _ Ef) as [_ (evs2 & T2 & F2 & _)].
        destruct (fetch_rounds_window _ _ _ _ _ _ Ef) as [_ W].
        destruct (W ps eq_refl) as (qs & ns & Hps & Hl1 & Hl2 & Hs & Hf & Hsv).
        destruct (submit_part_spec _ _ _ _ _ _ _ _ E) as (evs3 & T3 & _ & H3).
        pose proof (submit_part_requests env cb lsr rtf ps _ _ _ E) as Rq.
        rewrite T3, T2, T1, <- !app_assoc in T. apply app_inv_head in T. subst evs.
        apply in_app_or in Hin as [Hin|Hin];
          [exfalso; exact (Hnot _ (pre_round_before_payload _ F1) Hin)|].
        apply in_app_or in Hin as [Hin|Hin]; [exfalso; exact (Hnot _ F2 Hin)|].
        destruct (H3 _ Hin) as [-> _]. cbn [app] in Hps. subst ps.
        rewrite py_range_consecutive in Hl1, Hl2, Hsv by lia.
        rewrite length_consecutive in Hl1, Hl2.
        exists lsr, rtf, s1, ns. cbn [pulses]. split; [exact Eg|]. split; [exact Hr|].
        split; [reflexivity|]. split; [exact Hl1|]. split; [exact Hl2|]. split; [exact Hs|].
        intros i n p Hn Hp. rewrite Rq. split.
        { rewrite Forall_forall in Hf. exact (Hf _ (nth_error_In _ _ Hn)). }
        apply (Hsv i n _ p Hn); [|exact Hp].
        assert (Hi : (i < Z.to_nat rtf)%nat)
          by (rewrite <- Hl2; apply nth_error_Some; rewrite Hn; discriminate).
        rewrite nth_error_consecutive by exact Hi. reflexivity.
      * destruct (fetch_rounds_spec _ _ _ _ _ _ Ef) as [_ (evs2 & T2 & F2 & _)].
        rewrite T2, T1, <- app_assoc in T. apply app_inv_head in T. subst evs.
        apply in_app_or in Hin as [Hin|Hin];
          [exact (False_ind _ (Hnot _ (pre_round_before_payload _ F1) Hin))|
           exact (False_ind _ (Hnot _ F2 Hin))].
    + injection E as _ <-. rewrite T1 in T. apply app_inv_head in T. subst evs.
      exact (False_ind _ (Hnot _ (pre_round_before_payload _ F1) Hin)).
  - destruct (Ga _ _ _ Eg) as [evs1 [T1 F1]]. rewrite T1 in T. apply app_inv_head in T.
    subst evs. rewrite Forall_forall in F1. destruct (F1 _ Hin).
Qed.

(** The gate's [last_stored_round] is the stored one, or [latest - 1] when
    the chain stores 0. *)
Lemma gate_part_stored env cb s lsr rtf s' :
  gate_part env cb s = (Ok (Some (lsr, rtf)), s') ->
  let lsr0 := match storage (st_chain s) LastStoredRound with Some v => v | None => 0 end in
  exists latest, lsr = (if lsr0 =? 0 then latest - 1 else lsr0) /\ lsr < latest /\
    rtf = Z.min (latest - lsr) MAX_PULSES_TO_FETCH.
Proof.
  intros E lsr0. unfold gate_part in E.
  apply bind_inv in E as [(nua & s1 & E1 & E)|(e & _ & ?)]; [|exfalso; discriminate].
  cbv beta in E. unfold query in E1. injection E1 as _ <-.
  destruct (cb <? nua); [exfalso; injection E; discriminate|].
  apply bind_inv in E as [(l0 & s2 & E2 & E)|(e & _ & ?)]; [|exfalso; discriminate].
  cbv beta in E. unfold query in E2. injection E2 as E2 _. subst l0.
  apply bind_inv in E as [(resp & s3 & _ & E)|(e & _ & ?)]; [|exfalso; discriminate]. cbv beta in E.
  apply bind_inv in E as [(p & s4 & _ & E)|(e & _ & ?)]; [|exfalso; discriminate]. cbv beta in E.
  apply bind_inv in E as [(cr & s5 & _ & E)|(e & _ & ?)]; [|exfalso; discriminate].
  cbv beta zeta in E.
  match type of E with
  | context [cr <=? ?x] => destruct (Z.leb_spec cr x) as [Hle|Hlt]
  end.
  - apply bind_inv in E as [(u & s6 & _ & E)|(e & _ & ?)]; [|exfalso; discriminate].
    exfalso. injection E; discriminate.
  - injection E as Hl Hr _. exists cr. rewrite <- Hl, <- Hr.
    split; [reflexivity|]. split; [exact Hlt|reflexivity].
Qed.




(** C10: a dict whose randomness and signature are hex strings, the
    randomness decoding to 32 bytes, is accepted whatever its ["round"]
    holds, and the pulse's round is that field unchanged; in a payload a
    cycle builds, pulse [i] is the body of this cycle's request [ns_i] for
    the requested round [lsr + 1 + i], and its round is that body's
    ["round"] field, compared with nothing; a beacon that answers the
    request for round 10 with round 12 gets round 12 into the batch. *)
Theorem try_into_pulse_round_unchecked :
  (forall kvs j rs r ss g,
     lookup_last "round" kvs = Some j ->
     lookup_last "randomness" kvs = Some (JStr rs) -> unhexlify_str rs = Ok r ->
     lookup_last "signature" kvs = Some (JStr ss) -> unhexlify_str ss = Ok g ->
     List.length r = 32%nat ->
     try_into_pulse (JObj kvs) = Ok (mkPulse j r g) /\ round (mkPulse j r g) = j) /\
  (forall env cb s r s', submit_new_pulses env cb s = (r, s') ->
     forall evs pl, st_trace s' = st_trace s ++ evs -> In (EvEncode pl) evs ->
     exists lsr rtf s1 ns, gate_part env cb s = (Ok (Some (lsr, rtf)), s1) /\
       List.length (pulses pl) = Z.to_nat rtf /\ List.length ns = Z.to_nat rtf /\
       forall i n p, nth_error ns i = Some n -> nth_error (pulses pl) i = Some p ->
         (st_requests s1 <= n < st_requests s')%nat /\
         exists ep resp, In ep DRAND_ENDPOINTS /\
           env_http env n (ep ++ round_path (lsr + 1 + Z.of_nat i))%string =
             HttpResponse 200 resp /\
           try_into_pulse resp = Ok p /\ getitem resp "round" = Ok (round p)) /\
  (served_at echo_env 1 10 echo_pulse /\ round echo_pulse = JInt 12 /\
   In (EvEncode echo_payload) (st_trace (snd (submit_new_pulses echo_env 0 echo_st))) /\
   pulses echo_payload = [echo_pulse; echo_pulse; echo_pulse]).
Proof.
  split; [intros; split; [apply (try_into_pulse_accepts kvs j rs r ss g); assumption
                          |reflexivity]|].
  split.
  - intros env cb s r s' E evs pl T Hin.
    destruct (submit_new_pulses_sources _ _ _ _ _ E _ _ T Hin)
      as (lsr & rtf & s1 & ns & G & _ & _ & Hl1 & Hl2 & _ & H).
    exists lsr, rtf, s1, ns. split; [exact G|]. split; [exact Hl1|]. split; [exact Hl2|].
    intros i n p Hn Hp. destruct (H i n p Hn Hp) as [Hw (ep & resp & Hep & Hh & Ht)].
    split; [exact Hw|]. exists ep, resp. split; [exact Hep|]. split; [exact Hh|].
    split; [exact Ht|exact (try_into_pulse_round _ _ Ht)].
  - split; [|split; [reflexivity|split; [exact (proj2 echo_run_payload)|reflexivity]]].
    exists "https://api.drand.sh"%string, echo_body. split; [left; reflexivity|].
    split; [reflexivity|]. vm_compute. reflexivity.
Qed.

Lemma try_into_pulse_round_unchecked_witness :
  try_into_pulse text_round_resp = Ok (mkPulse (JStr "abc") (repeat x00 32) []) /\
  round (mkPulse (JStr "abc") (repeat x00 32) []) = JStr "abc".
Proof.
  apply (proj1 try_into_pulse_round_unchecked _ (JStr "abc") (zero_hex 32) (repeat x00 32)
           EmptyString []);
    vm_compute; reflexivity.
Defined.

(** C2: below the threshold the cycle only reads [NextUnsignedAt]; above it,
    once the latest pulse gives round [latest], a stored round of 0 is read
    as [latest - 1]; the cycle prints and stops when [latest] is not past
    the stored round, and otherwise it asks for the rounds
    [lsr + 1, ..., lsr + rounds_to_fetch] in ascending order, where
    [rounds_to_fetch = min(latest - lsr, 50)]; it stops short only when
    that loop raises at some round. *)
Theorem submit_new_pulses_gate (env : Env) (cb : Z) (s : St) :
  let nua := match storage (st_chain s) NextUnsignedAt with Some v => v | None => 0 end in
  let lsr0 := match storage (st_chain s) LastStoredRound with Some v => v | None => 0 end in
  let s1 := log s (EvQuery NextUnsignedAt) in
  let s2 := log s1 (EvQuery LastStoredRound) in
  (cb < nua -> submit_new_pulses env cb s = (Ok tt, s1)) /\
  (nua <= cb -> forall resp s3 p latest,
     fetch_drand_latest env s2 = (Ok resp, s3) ->
     try_into_pulse resp = Ok p -> py_int (round p) = Ok latest ->
     let lsr := if lsr0 =? 0 then latest - 1 else lsr0 in
     (latest <= lsr -> submit_new_pulses env cb s = (Ok tt, log s3 (EvPrint MsgNoNewRounds))) /\
     (lsr < latest ->
        let rounds_to_fetch := Z.min (latest - lsr) MAX_PULSES_TO_FETCH in
        let target := map (fun i => lsr + 1 + Z.of_nat i) (seq 0 (Z.to_nat rounds_to_fetch)) in
        1 <= rounds_to_fetch <= 50 /\
        forall r s', submit_new_pulses env cb s = (r, s') ->
        exists evs, st_trace s' = st_trace s3 ++ evs /\
          (round_requests evs = target \/
           exists e k, r = Err e /\ (k < List.length target)%nat /\
                       round_requests evs = firstn (S k) target))).
Proof.
  intros nua lsr0 s1 s2. split.
  - intros H. unfold submit_new_pulses. rewrite (bind_ok _ _ _ _ _ (gate_part_below env cb s H)).
    reflexivity.
  - intros Hge resp s3 p latest Hf Ht Hr lsr.
    pose proof (gate_part_above env cb s resp s3 p latest Hge Hf Ht Hr) as G.
    cbv zeta in G. fold lsr0 in G. fold lsr in G. split.
    + intros Hle. rewrite (proj2 (Z.leb_le _ _) Hle) in G.
      unfold submit_new_pulses. rewrite (bind_ok _ _ _ _ _ G). reflexivity.
    + intros Hlt rtf target. rewrite (proj2 (Z.leb_gt _ _) Hlt) in G. fold rtf in G.
      split; [unfold rtf, MAX_PULSES_TO_FETCH; lia|].
      intros r s' E.
      assert (Ht' : py_range (lsr + 1) (lsr + 1 + rtf) = target).
      { rewrite py_range_consecutive by (unfold rtf, MAX_PULSES_TO_FETCH; lia). reflexivity. }
      pose proof (submit_new_pulses_after_gate _ _ _ _ _ _ _ _ G E) as H.
      cbv zeta in H. rewrite Ht' in H. exact H.
Qed.

Lemma submit_new_pulses_gate_witness :
  submit_new_pulses echo_env 0 (mkSt (mkChain (Some 5) None) 0 0 []) =
    (Ok tt, log (mkSt (mkChain (Some 5) None) 0 0 []) (EvQuery NextUnsignedAt)) /\
  exists evs,
    st_trace (snd (submit_new_pulses echo_env 0 echo_st)) =
      st_trace (snd (fetch_drand_latest echo_env
                   (log (log echo_st (EvQuery NextUnsignedAt)) (EvQuery LastStoredRound)))) ++ evs /\
    round_requests evs = [10; 11; 12].
Proof.
  split.
  - apply (proj1 (submit_new_pulses_gate echo_env 0 (mkSt (mkChain (Some 5) None) 0 0 []))).
    vm_compute. reflexivity.
  - pose proof (proj2 (submit_new_pulses_gate echo_env 0 echo_st)
      ltac:(vm_compute; intro H; discriminate H) echo_body _ echo_pulse 12
      (surjective_pairing _) ltac:(vm_compute; reflexivity) eq_refl) as H.
    destruct H as [_ H]. specialize (H ltac:(vm_compute; reflexivity)).
    destruct H as [_ H]. specialize (H _ _ (surjective_pairing _)).
    destruct H as [evs [T [H|(e & k & He & _)]]].
    + exists evs. split; [exact T|exact H].
    + vm_compute in He. discriminate He.
Defined.

(** C7: when the gate lets the cycle go on and the loop over the target
    rounds raises (a fetch or a [try_into_pulse] fails), [submit_new_pulses]
    raises the same exception from the same state: no payload is encoded,
    nothing is signed or submitted, the chain (hence [LastStoredRound]) is
    unchanged; the subscription handler does not catch, so the exception
    leaves it. *)
Theorem submit_new_pulses_round_failure_aborts env cb s lsr rtf s1 e s2 :
  gate_part env cb s = (Ok (Some (lsr, rtf)), s1) ->
  fetch_rounds env (py_range (lsr + 1) (lsr + 1 + rtf)) [] s1 = (Err e, s2) ->
  submit_new_pulses env cb s = (Err e, s2) /\
  st_chain s2 = st_chain s /\
  storage (st_chain s2) LastStoredRound = storage (st_chain s) LastStoredRound /\
  (exists evs, st_trace s2 = st_trace s ++ evs /\ Forall before_payload evs) /\
  (forall bs, block_subscription env (cb :: bs) s = (Err e, s2)).
Proof.
  intros G F.
  assert (E : submit_new_pulses env cb s = (Err e, s2)).
  { unfold submit_new_pulses. rewrite (bind_ok _ _ _ _ _ G). cbv beta iota.
    unfold bind at 1. rewrite F. reflexivity. }
  destruct (gate_part_effects env cb) as [Ga Gk].
  destruct (fetch_rounds_spec _ _ _ _ _ _ F) as [C2 (evs2 & T2 & F2 & _)].
  destruct (Ga _ _ _ G) as [evs1 [T1 F1]].
  assert (C : st_chain s2 = st_chain s) by (rewrite C2; exact (Gk _ _ _ G)).
  split; [exact E|]. split; [exact C|]. split; [rewrite C; reflexivity|]. split.
  - exists (evs1 ++ evs2). rewrite T2, T1, app_assoc. split; [reflexivity|].
    apply Forall_app. split; [apply pre_round_before_payload, F1|exact F2].
  - intros bs. cbn [block_subscription]. unfold bind at 1. rewrite E. reflexivity.
Qed.

Lemma submit_new_pulses_round_failure_aborts_witness :
  exists s2, submit_new_pulses fail_env 0 echo_st = (Err NO_RESPONSE, s2) /\
             st_chain s2 = st_chain echo_st.
Proof.
  assert (G : gate_part fail_env 0 echo_st =
              (Ok (Some (9, 3)), snd (gate_part fail_env 0 echo_st)))
    by (vm_compute; reflexivity).
  assert (F : fetch_rounds fail_env (py_range (9 + 1) (9 + 1 + 3)) []
                (snd (gate_part fail_env 0 echo_st)) =
              (Err NO_RESPONSE, snd (fetch_rounds fail_env (py_range (9 + 1) (9 + 1 + 3)) []
                                       (snd (gate_part fail_env 0 echo_st)))))
    by (vm_compute; reflexivity).
  destruct (submit_new_pulses_round_failure_aborts _ _ _ _ _ _ _ _ G F) as [E [C _]].
  eexists. exact (conj E C).
Defined.

(** C7 as stated: the failure is not retried on the next block.  With a
    beacon that is down only while the cycle of block 0 fetches round 10,
    the subscription over blocks 0 and 1 ends with that cycle's exception
    and submits nothing, while the cycle of block 1, had it been run from
    the state the first cycle left, would have submitted. *)
Lemma subscription_stops_after_round_failure :
  block_subscription flaky_env [0; 1] echo_st = submit_new_pulses flaky_env 0 echo_st /\
  fst (block_subscription flaky_env [0; 1] echo_st) = Err NO_RESPONSE /\
  existsb is_submit (st_trace (snd (block_subscription flaky_env [0; 1] echo_st))) = false /\
  existsb is_submit
    (st_trace (snd (submit_new_pulses flaky_env 1 (snd (submit_new_pulses flaky_env 0 echo_st)))))
    = true.
Proof. split; [|split; [|split]]; vm_compute; reflexivity. Qed.

(** C8 (as amended): a payload the cycle builds is for the current block;
    the gate let the cycle go on with [(lsr, rtf)], where [lsr] is the
    stored [LastStoredRound], or [latest - 1] when that is 0, and
    [rtf = min(latest - lsr, 50)] is between 1 and 50; the payload has
    [rtf] pulses, and pulse [i] is what [try_into_pulse] accepted from the
    [200] answer to this cycle's request [ns_i], made to a drand endpoint
    for round [lsr + 1 + i], the request numbers increasing; its round
    values are [lsr + 1, ..., lsr + rtf] when every [200] response of the
    beacon carries the round it was asked for.  An empty pulse list prints
    and builds no payload. *)
Theorem submit_new_pulses_payload_invariant env cb s r s' :
  submit_new_pulses env cb s = (r, s') ->
  (forall lsr rtf s0, submit_part env cb lsr rtf [] s0 = (Ok tt, log s0 (EvPrint MsgNoNewPulses))) /\
  forall evs pl, st_trace s' = st_trace s ++ evs -> In (EvEncode pl) evs ->
    let lsr0 := match storage (st_chain s) LastStoredRound with Some v => v | None => 0 end in
    exists latest lsr rtf s1 ns,
      gate_part env cb s = (Ok (Some (lsr, rtf)), s1) /\
      lsr = (if lsr0 =? 0 then latest - 1 else lsr0) /\ lsr < latest /\
      rtf = Z.min (latest - lsr) MAX_PULSES_TO_FETCH /\
      block_number pl = cb /\ 1 <= rtf <= 50 /\ List.length (pulses pl) = Z.to_nat rtf /\
      List.length ns = Z.to_nat rtf /\ StronglySorted lt ns /\
      (forall i n p, nth_error ns i = Some n -> nth_error (pulses pl) i = Some p ->
         (st_requests s1 <= n < st_requests s')%nat /\
         served_at env n (lsr + 1 + Z.of_nat i) p) /\
      ((forall n ep q resp, In ep DRAND_ENDPOINTS ->
          env_http env n (ep ++ round_path q)%string = HttpResponse 200 resp ->
          getitem resp "round" = Ok (JInt q)) ->
       map round (pulses pl) = map JInt (consecutive (lsr + 1) (Z.to_nat rtf))).
Proof.
  intros E. split; [reflexivity|]. intros evs pl T Hin lsr0.
  destruct (submit_new_pulses_sources _ _ _ _ _ E _ _ T Hin)
    as (lsr & rtf & s1 & ns & G & Hr & Hpl & Hl1 & Hl2 & Hs & H).
  destruct (gate_part_stored _ _ _ _ _ _ G) as (latest & Hlsr & Hlt & Hrtf).
  exists latest, lsr, rtf, s1, ns.
  split; [exact G|]. split; [exact Hlsr|]. split; [exact Hlt|]. split; [exact Hrtf|].
  split; [rewrite Hpl; reflexivity|]. split; [exact Hr|]. split; [exact Hl1|].
  split; [exact Hl2|]. split; [exact Hs|]. split; [exact H|].
  intros Honest. apply nth_error_ext. intros i. rewrite !nth_error_map.
  destruct (Nat.ltb_spec i (Z.to_nat rtf)) as [Hi|Hi].
  - rewrite nth_error_consecutive by exact Hi.
    destruct (nth_error (pulses pl) i) as [p|] eqn:Hp;
      [|apply nth_error_None in Hp; lia].
    destruct (nth_error ns i) as [n|] eqn:Hn;
      [|apply nth_error_None in Hn; lia].
    destruct (H i n p Hn Hp) as [_ (ep & resp & Hep & Hh & Ht)].
    pose proof (try_into_pulse_round _ _ Ht) as H1. rewrite (Honest _ _ _ _ Hep Hh) in H1.
    cbn [option_map]. injection H1 as H1. rewrite <- H1. reflexivity.
  - rewrite (proj2 (nth_error_None (pulses pl) i)) by lia.
    rewrite (proj2 (nth_error_None (consecutive (lsr + 1) (Z.to_nat rtf)) i))
      by (rewrite length_consecutive; lia).
    reflexivity.
Qed.

Lemma submit_new_pulses_payload_invariant_witness :
  (1 <= List.length (pulses echo_payload))%nat /\
  map round (pulses echo_payload) = [JInt 12; JInt 12; JInt 12].
Proof.
  destruct (proj2 (submit_new_pulses_payload_invariant echo_env 0 echo_st _ _ (surjective_pairing _))
              (st_trace (snd (submit_new_pulses echo_env 0 echo_st))) echo_payload
              (eq_sym (app_nil_l _))
              (proj2 echo_run_payload))
    as (latest & lsr & rtf & s1 & ns & _ & _ & _ & _ & _ & Hr & Hl & _).
  split; [rewrite Hl; lia|reflexivity].
Defined.

(** C8 as stated: with a beacon that answers every request with round 12,
    the cycle asks for rounds 10, 11 and 12 and builds a payload whose
    rounds are 12, 12, 12: neither increasing nor consecutive. *)
Lemma pipeline_payload_repeats_round :
  In (EvEncode echo_payload) (st_trace (snd (submit_new_pulses echo_env 0 echo_st))) /\
  map round (pulses echo_payload) = [JInt 12; JInt 12; JInt 12].
Proof. split; [exact (proj2 echo_run_payload)|reflexivity]. Qed.

(** * Further properties of the code *)

(** ** encode_pulse and the payload loop *)

Lemma ok_inj {A} (a b : A) : Ok a = Ok b -> a = b.
Proof. intros H. injection H as H. exact H. Qed.

Lemma encode_pulses_loop_pulse {R} `{ToBytes R} (ps : list (Pulse R)) (acc : list byte) :
  encode_pulses_loop ps acc = (let? body := encode_pulse_list ps in Ok (acc ++ body)).
Proof.
  revert acc; induction ps as [|p ps IH]; intros acc;
    cbn [encode_pulses_loop encode_pulse_list].
  - cbn [res_bind]. rewrite app_nil_r. reflexivity.
  - unfold encode_pulse.
    destruct (to_bytes (round p) 8) as [r|e]; cbn [res_bind]; [|reflexivity].
    destruct (encode_compact_u32 (Z.of_nat (List.length (randomness p)))) as [c1|e];
      cbn [res_bind]; [|reflexivity].
    destruct (encode_compact_u32 (Z.of_nat (List.length (signature p)))) as [c2|e];
      cbn [res_bind]; [|reflexivity].
    rewrite IH. destruct (encode_pulse_list ps) as [rest|e]; cbn [res_bind]; [|reflexivity].
    rewrite <- !app_assoc. reflexivity.
Qed.

(** X1: [encode_pulses_payload] encodes each pulse exactly as the unused
    [encode_pulse] does, raising the same exception at the same pulse. *)
Theorem encode_pulses_payload_via_encode_pulse {R} `{ToBytes R} (pl : PulsesPayload R) :
  encode_pulses_payload pl =
  (let? encoded := int_to_bytes (block_number pl) 4 in
   let? c := encode_compact_u32 (Z.of_nat (List.length (pulses pl))) in
   let? body := encode_pulse_list (pulses pl) in
   Ok (encoded ++ c ++ body ++ [x01] ++ public pl)).
Proof.
  unfold encode_pulses_payload.
  destruct (int_to_bytes (block_number pl) 4) as [e|x]; cbn [res_bind]; [|reflexivity].
  destruct (encode_compact_u32 _) as [c|x]; cbn [res_bind]; [|reflexivity].
  rewrite encode_pulses_loop_pulse.
  destruct (encode_pulse_list (pulses pl)) as [b|x]; cbn [res_bind]; [|reflexivity].
  rewrite <- !app_assoc. reflexivity.
Qed.

(** ** Sizes *)

Lemma pulses_layout_length (ps : list (Pulse Z)) (body : list byte) :
  pulses_layout ps = Ok body -> List.length body = list_sum (map pulse_size ps).
Proof.
  revert body; induction ps as [|p ps IH]; intros body E; cbn [pulses_layout] in E.
  - injection E as <-. reflexivity.
  - unfold pulse_layout in E.
    destruct (encode_compact_u32 (Z.of_nat (List.length (randomness p)))) as [c1|x] eqn:E1;
      cbn [res_bind] in E; [|(exfalso; discriminate E)].
    destruct (encode_compact_u32 (Z.of_nat (List.length (signature p)))) as [c2|x] eqn:E2;
      cbn [res_bind] in E; [|(exfalso; discriminate E)].
    destruct (pulses_layout ps) as [rest|x]; cbn [res_bind] in E; [|(exfalso; discriminate E)].
    apply ok_inj in E. subst body. cbn [map].
    change (list_sum (pulse_size p :: map pulse_size ps))
      with (pulse_size p + list_sum (map pulse_size ps))%nat.
    rewrite !length_app, length_le_bytes, (IH rest eq_refl).
    rewrite (compact_length _ _ (Nat2Z.is_nonneg _) E1), (compact_length _ _ (Nat2Z.is_nonneg _) E2).
    unfold pulse_size. lia.
Qed.

(** X2: an encoded payload takes 4 bytes of block number, the width of the
    compact count, the size of each pulse (8 round bytes, then each byte
    string with its compact length), one discriminant byte and the public
    key. *)
Theorem encode_pulses_payload_length (pl : PulsesPayload Z) (o : list byte) :
  encode_pulses_payload pl = Ok o ->
  List.length o = (4 + compact_width (Z.of_nat (List.length (pulses pl)))
                   + list_sum (map pulse_size (pulses pl)) + 1 + List.length (public pl))%nat.
Proof.
  intros E. destruct (encode_pulses_payload_ok _ _ E) as [_ [_ L]].
  unfold payload_layout in L.
  destruct (encode_compact_u32 _) as [c|x] eqn:Ec; cbn [res_bind] in L; [|(exfalso; discriminate L)].
  destruct (pulses_layout (pulses pl)) as [body|x] eqn:Eb; cbn [res_bind] in L; [|(exfalso; discriminate L)].
  apply ok_inj in L. subst o.
  rewrite !length_app, length_le_bytes, (pulses_layout_length _ _ Eb),
    (compact_length _ _ (Nat2Z.is_nonneg _) Ec).
  cbn [List.length]. lia.
Qed.

Lemma encode_pulses_payload_length_witness :
  exists o, encode_pulses_payload sample_payload = Ok o /\ List.length o = 124%nat.
Proof.
  destruct (encode_pulses_payload sample_payload) as [o|e] eqn:E;
    [|vm_compute in E; exfalso; discriminate E].
  exists o. split; [reflexivity|].
  rewrite (encode_pulses_payload_length _ _ E). reflexivity.
Defined.

(** ** The compact encoding read back *)

Lemma compact_encodes_tiered (v : Z) (bs : list byte) :
  0 <= v -> encode_compact_u32 v = Ok bs ->
  List.length bs = compact_width v /\ le_value bs = 4 * v + compact_tag v.
Proof.
  intros Hv E. unfold compact_width, compact_tag.
  destruct (Z.ltb_spec v 64).
  { destruct (compact_tier_1 v ltac:(lia)) as [bs' [E' [L [_ V]]]].
    rewrite E in E'. injection E' as <-. auto. }
  destruct (Z.ltb_spec v 16384).
  { destruct (compact_tier_2 v ltac:(lia)) as [bs' [E' [L [_ V]]]].
    rewrite E in E'. injection E' as <-. auto. }
  destruct (Z.ltb_spec v 1073741824).
  { destruct (compact_tier_3 v ltac:(lia)) as [bs' [E' [L [_ V]]]].
    rewrite E in E'. injection E' as <-. auto. }
  destruct (Z.ltb_spec v (2 ^ 38)).
  { destruct (compact_tier_4 v ltac:(lia)) as [bs' [E' [L [_ V]]]].
    rewrite E in E'. injection E' as <-. auto. }
  rewrite compact_overflow in E by lia. (exfalso; discriminate E).
Qed.

Lemma compact_width_tag (v : Z) : compact_width v = width_of_tag (compact_tag v).
Proof.
  unfold compact_width, compact_tag.
  destruct (v <? 64); [reflexivity|]. destruct (v <? 16384); [reflexivity|].
  destruct (v <? 1073741824); reflexivity.
Qed.

Lemma compact_tag_range (v : Z) : 0 <= compact_tag v < 4.
Proof.
  unfold compact_tag. destruct (v <? 64); [lia|]. destruct (v <? 16384); [lia|].
  destruct (v <? 1073741824); lia.
Qed.

Lemma width_of_tag_inj (t u : Z) :
  0 <= t < 4 -> 0 <= u < 4 -> width_of_tag t = width_of_tag u -> t = u.
Proof.
  intros Ht Hu H.
  assert (Ht' : t = 0 \/ t = 1 \/ t = 2 \/ t = 3) by lia.
  assert (Hu' : u = 0 \/ u = 1 \/ u = 2 \/ u = 3) by lia.
  destruct Ht' as [-> | [-> | [-> | ->]]]; destruct Hu' as [-> | [-> | [-> | ->]]];
    cbv in H; first [reflexivity | (exfalso; discriminate H)].
Qed.

Lemma compact_inj (a b : Z) (bs : list byte) :
  0 <= a -> 0 <= b -> encode_compact_u32 a = Ok bs -> encode_compact_u32 b = Ok bs -> a = b.
Proof.
  intros Ha Hb Ea Eb.
  destruct (compact_encodes_tiered a bs Ha Ea) as [La Va].
  destruct (compact_encodes_tiered b bs Hb Eb) as [Lb Vb].
  rewrite compact_width_tag in La, Lb.
  assert (T : compact_tag a = compact_tag b)
    by (apply width_of_tag_inj; [apply compact_tag_range|apply compact_tag_range|rewrite <- La; exact Lb]).
  lia.
Qed.

Lemma compact_small (v : Z) :
  v < 64 -> encode_compact_u32 v = Ok [byte_of_Z (Z.land (Z.shiftl v 2) 255)].
Proof.
  intros Hv. unfold encode_compact_u32. rewrite (proj2 (Z.ltb_lt v 64)) by lia.
  rewrite int_to_bytes_in_range.
  - cbn [le_bytes]. rewrite <- Z.land_assoc. reflexivity.
  - rewrite land_255. change (2 ^ (8 * Z.of_nat 1)) with 256.
    pose proof (Z.mod_pos_bound (Z.shiftl v 2) 256). lia.
Qed.

Lemma compact_negative_mod (v : Z) :
  v < 0 -> encode_compact_u32 v = encode_compact_u32 (v mod 64).
Proof.
  intros Hv. pose proof (Z.mod_pos_bound v 64 ltac:(lia)) as Hm.
  rewrite (compact_small v) by lia. rewrite (compact_small (v mod 64)) by lia.
  do 2 f_equal. rewrite !land_255, !Z.shiftl_mul_pow2 by lia. change (2 ^ 2) with 4.
  rewrite (Z.mul_comm v 4), (Z.mul_comm (v mod 64) 4). change 256 with (4 * 64).
  rewrite (Z.mul_mod_distr_l v 64 4) by lia.
  rewrite (Z.mod_small (4 * (v mod 64)) (4 * 64)) by lia. reflexivity.
Qed.

(** X3: on non-negative values the compact encoding is injective; a
    negative value is encoded as its remainder modulo 64, so [-1] and [63]
    give the same byte. *)
Theorem encode_compact_u32_injective :
  (forall a b bs, 0 <= a -> 0 <= b ->
     encode_compact_u32 a = Ok bs -> encode_compact_u32 b = Ok bs -> a = b) /\
  (forall v, v < 0 -> encode_compact_u32 v = encode_compact_u32 (v mod 64)).
Proof. split; [exact compact_inj | exact compact_negative_mod]. Qed.

Lemma encode_compact_u32_injective_witness :
  encode_compact_u32 (-1) = encode_compact_u32 63.
Proof. exact (proj2 encode_compact_u32_injective (-1) ltac:(lia)). Defined.

Lemma compact_first_byte (v : Z) (bs : list byte) :
  0 <= v -> encode_compact_u32 v = Ok bs ->
  exists b rest, bs = b :: rest /\ List.length bs = width_of_tag (Z.land (Z_of_byte b) 3).
Proof.
  intros Hv E. destruct (compact_encodes_tiered v bs Hv E) as [L V].
  rewrite compact_width_tag in L.
  destruct bs as [|b rest].
  { unfold width_of_tag in L. cbn [List.length] in L.
    destruct (compact_tag v =? 0); [(exfalso; discriminate L)|]. destruct (compact_tag v =? 1); [(exfalso; discriminate L)|].
    destruct (compact_tag v =? 2); exfalso; discriminate L. }
  exists b, rest. split; [reflexivity|]. rewrite L. f_equal.
  cbn [le_value] in V. pose proof (compact_tag_range v) as Ht.
  change 3 with (Z.ones 2). rewrite Z.land_ones by lia. change (2 ^ 2) with 4.
  replace (Z_of_byte b) with (compact_tag v + (v - 64 * le_value rest) * 4) by lia.
  rewrite Z.mod_add by lia. rewrite Z.mod_small by lia. reflexivity.
Qed.

Lemma compact_prefix_free (a b : Z) (c d x y : list byte) :
  0 <= a -> 0 <= b -> encode_compact_u32 a = Ok c -> encode_compact_u32 b = Ok d ->
  c ++ x = d ++ y -> a = b /\ x = y.
Proof.
  intros Ha Hb Ec Ed E.
  destruct (compact_first_byte a c Ha Ec) as (ca & cr & -> & Lc).
  destruct (compact_first_byte b d Hb Ed) as (da & dr & -> & Ld).
  assert (H0 : ca = da) by (injection E; auto). subst da.
  apply app_inv_length in E as [Ecd Exy]; [|rewrite Lc, Ld; reflexivity].
  rewrite Ecd in Ec. split; [exact (compact_inj a b _ Ha Hb Ec Ed) | exact Exy].
Qed.

(** X4: the compact encoding of a non-negative value announces its own
    width in the two low bits of its first byte (0, 1, 2, 3 for 1, 2, 4, 5
    bytes), so a compact prefix can be split off whatever follows it. *)
Theorem encode_compact_u32_self_delimiting :
  (forall v bs, 0 <= v -> encode_compact_u32 v = Ok bs ->
     exists b rest, bs = b :: rest /\ List.length bs = width_of_tag (Z.land (Z_of_byte b) 3)) /\
  (forall a b c d x y, 0 <= a -> 0 <= b -> encode_compact_u32 a = Ok c ->
     encode_compact_u32 b = Ok d -> c ++ x = d ++ y -> a = b /\ x = y).
Proof. split; [exact compact_first_byte | exact compact_prefix_free]. Qed.

Lemma encode_compact_u32_self_delimiting_witness :
  exists b rest, encode_compact_u32 16384 = Ok (b :: rest) /\
    List.length (b :: rest) = width_of_tag (Z.land (Z_of_byte b) 3).
Proof.
  destruct (encode_compact_u32 16384) as [bs|e] eqn:E; [|vm_compute in E; exfalso; discriminate E].
  destruct (proj1 encode_compact_u32_self_delimiting 16384 bs ltac:(lia) E)
    as (b & rest & -> & L).
  exists b, rest. auto.
Defined.

(** ** The payload read back *)

Lemma pulse_layout_prefix (p q : Pulse Z) (a b t u : list byte) :
  0 <= round p < 2 ^ 64 -> 0 <= round q < 2 ^ 64 ->
  pulse_layout p = Ok a -> pulse_layout q = Ok b -> a ++ t = b ++ u -> p = q /\ t = u.
Proof.
  unfold pulse_layout. intros Hp Hq Ea Eb E.
  destruct (encode_compact_u32 (Z.of_nat (List.length (randomness p)))) as [c1|x] eqn:C1;
    cbn [res_bind] in Ea; [|(exfalso; discriminate Ea)].
  destruct (encode_compact_u32 (Z.of_nat (List.length (signature p)))) as [c2|x] eqn:C2;
    cbn [res_bind] in Ea; [|(exfalso; discriminate Ea)].
  destruct (encode_compact_u32 (Z.of_nat (List.length (randomness q)))) as [d1|x] eqn:D1;
    cbn [res_bind] in Eb; [|(exfalso; discriminate Eb)].
  destruct (encode_compact_u32 (Z.of_nat (List.length (signature q)))) as [d2|x] eqn:D2;
    cbn [res_bind] in Eb; [|(exfalso; discriminate Eb)].
  apply ok_inj in Ea, Eb. subst a b. rewrite <- !app_assoc in E.
  apply app_inv_length in E as [Er E]; [|rewrite !length_le_bytes; reflexivity].
  assert (H64 : 2 ^ (8 * Z.of_nat 8) = 2 ^ 64) by reflexivity.
  apply le_bytes_inj in Er; [|rewrite H64; exact Hp|rewrite H64; exact Hq].
  apply (compact_prefix_free _ _ _ _ _ _ (Nat2Z.is_nonneg _) (Nat2Z.is_nonneg _) C1 D1) in E
    as [Lr E].
  apply app_inv_length in E as [Rr E]; [|lia].
  apply (compact_prefix_free _ _ _ _ _ _ (Nat2Z.is_nonneg _) (Nat2Z.is_nonneg _) C2 D2) in E
    as [Ls E].
  apply app_inv_length in E as [Sr E]; [|lia].
  destruct p as [rp ap sp], q as [rq aq sq]. cbn [round randomness signature] in *.
  subst. auto.
Qed.

Lemma pulses_layout_prefix (ps qs : list (Pulse Z)) (a b t u : list byte) :
  List.length ps = List.length qs ->
  Forall (fun p => 0 <= round p < 2 ^ 64) ps -> Forall (fun p => 0 <= round p < 2 ^ 64) qs ->
  pulses_layout ps = Ok a -> pulses_layout qs = Ok b -> a ++ t = b ++ u -> ps = qs /\ t = u.
Proof.
  revert qs a b; induction ps as [|p ps IH]; intros [|q qs] a b L Fp Fq Ea Eb E;
    try (exfalso; discriminate L).
  - cbn [pulses_layout] in Ea, Eb. injection Ea as <-. injection Eb as <-. auto.
  - cbn [pulses_layout] in Ea, Eb.
    destruct (pulse_layout p) as [pa|x] eqn:Pa; cbn [res_bind] in Ea; [|(exfalso; discriminate Ea)].
    destruct (pulses_layout ps) as [ra|x] eqn:Ra; cbn [res_bind] in Ea; [|(exfalso; discriminate Ea)].
    destruct (pulse_layout q) as [pb|x] eqn:Pb; cbn [res_bind] in Eb; [|(exfalso; discriminate Eb)].
    destruct (pulses_layout qs) as [rb|x] eqn:Rb; cbn [res_bind] in Eb; [|(exfalso; discriminate Eb)].
    apply ok_inj in Ea, Eb. subst a b. rewrite <- !app_assoc in E.
    inversion Fp as [|? ? Hp Fp']; subst. inversion Fq as [|? ? Hq Fq']; subst.
    destruct (pulse_layout_prefix _ _ _ _ _ _ Hp Hq Pa Pb E) as [-> E'].
    destruct (IH qs _ _ ltac:(cbn [List.length] in L; lia) Fp' Fq' eq_refl Rb E') as [-> ->].
    auto.
Qed.

(** X5: [encode_pulses_payload] is injective on payloads with integer
    rounds: two payloads with the same encoding are equal. *)
Theorem encode_pulses_payload_injective (pl1 pl2 : PulsesPayload Z) (o : list byte) :
  encode_pulses_payload pl1 = Ok o -> encode_pulses_payload pl2 = Ok o -> pl1 = pl2.
Proof.
  intros E1 E2.
  destruct (encode_pulses_payload_ok _ _ E1) as [B1 [F1 L1]].
  destruct (encode_pulses_payload_ok _ _ E2) as [B2 [F2 L2]].
  clear E1 E2. unfold payload_layout in L1, L2.
  destruct (encode_compact_u32 (Z.of_nat (List.length (pulses pl1)))) as [c1|x] eqn:C1;
    cbn [res_bind] in L1; [|(exfalso; discriminate L1)].
  destruct (pulses_layout (pulses pl1)) as [b1|x] eqn:P1; cbn [res_bind] in L1; [|(exfalso; discriminate L1)].
  destruct (encode_compact_u32 (Z.of_nat (List.length (pulses pl2)))) as [c2|x] eqn:C2;
    cbn [res_bind] in L2; [|(exfalso; discriminate L2)].
  destruct (pulses_layout (pulses pl2)) as [b2|x] eqn:P2; cbn [res_bind] in L2; [|(exfalso; discriminate L2)].
  apply ok_inj in L1, L2. rewrite <- L2 in L1. clear L2.
  apply app_inv_length in L1 as [Eb L1]; [|rewrite !length_le_bytes; reflexivity].
  apply le_bytes_inj in Eb; [|exact B1|exact B2].
  apply (compact_prefix_free _ _ _ _ _ _ (Nat2Z.is_nonneg _) (Nat2Z.is_nonneg _) C1 C2) in L1
    as [Lc L1].
  apply (pulses_layout_prefix _ _ _ _ _ _ (Nat2Z.inj _ _ Lc) F1 F2 P1 P2) in L1 as [Eps L1].
  injection L1 as Ek.
  destruct pl1 as [bn1 ps1 k1], pl2 as [bn2 ps2 k2]. cbn [block_number pulses public] in *.
  subst. reflexivity.
Qed.

Lemma encode_pulses_payload_injective_witness : sample_payload = sample_payload.
Proof.
  destruct (encode_pulses_payload sample_payload) as [o|e] eqn:E;
    [|vm_compute in E; exfalso; discriminate E].
  exact (encode_pulses_payload_injective _ _ _ E E).
Defined.

(** ** The payload's domain *)

Lemma int_to_bytes_err (v : Z) (n : nat) (e : Exc) :
  int_to_bytes v n = Err e -> e = OverflowError.
Proof.
  unfold int_to_bytes. destruct ((0 <=? v) && (v <? 2 ^ (8 * Z.of_nat n)));
    intros H; [(exfalso; discriminate H) | injection H as <-; reflexivity].
Qed.

Lemma compact_err (v : Z) (e : Exc) : encode_compact_u32 v = Err e -> e = OverflowError.
Proof.
  unfold encode_compact_u32.
  destruct (v <? 64); [apply int_to_bytes_err|]. destruct (v <? 16384); [apply int_to_bytes_err|].
  destruct (v <? 1073741824); apply int_to_bytes_err.
Qed.

Lemma compact_ok_range (v : Z) (bs : list byte) : encode_compact_u32 v = Ok bs -> v < 2 ^ 38.
Proof.
  intros E. destruct (Z.ltb_spec v (2 ^ 38)) as [H|H]; [exact H|].
  rewrite compact_overflow in E by exact H. (exfalso; discriminate E).
Qed.

Lemma encode_pulses_loop_err (ps : list (Pulse Z)) (acc : list byte) (e : Exc) :
  encode_pulses_loop ps acc = Err e -> e = OverflowError.
Proof.
  revert acc; induction ps as [|p ps IH]; intros acc E; cbn [encode_pulses_loop] in E;
    [(exfalso; discriminate E)|].
  unfold to_bytes, ToBytes_int in E.
  destruct (int_to_bytes (round p) 8) as [r|x] eqn:Er; cbn [res_bind] in E;
    [|injection E as <-; exact (int_to_bytes_err _ _ _ Er)].
  destruct (encode_compact_u32 (Z.of_nat (List.length (randomness p)))) as [c1|x] eqn:E1;
    cbn [res_bind] in E; [|injection E as <-; exact (compact_err _ _ E1)].
  destruct (encode_compact_u32 (Z.of_nat (List.length (signature p)))) as [c2|x] eqn:E2;
    cbn [res_bind] in E; [|injection E as <-; exact (compact_err _ _ E2)].
  exact (IH _ E).
Qed.

Lemma pulses_layout_ranges (ps : list (Pulse Z)) (body : list byte) :
  pulses_layout ps = Ok body ->
  Forall (fun p => Z.of_nat (List.length (randomness p)) < 2 ^ 38 /\
                   Z.of_nat (List.length (signature p)) < 2 ^ 38) ps.
Proof.
  revert body; induction ps as [|p ps IH]; intros body E; [constructor|].
  cbn [pulses_layout] in E. unfold pulse_layout in E.
  destruct (encode_compact_u32 (Z.of_nat (List.length (randomness p)))) as [c1|x] eqn:E1;
    cbn [res_bind] in E; [|(exfalso; discriminate E)].
  destruct (encode_compact_u32 (Z.of_nat (List.length (signature p)))) as [c2|x] eqn:E2;
    cbn [res_bind] in E; [|(exfalso; discriminate E)].
  destruct (pulses_layout ps) as [rest|x] eqn:Er; cbn [res_bind] in E; [|(exfalso; discriminate E)].
  constructor; [split; [exact (compact_ok_range _ _ E1)|exact (compact_ok_range _ _ E2)]|].
  exact (IH _ eq_refl).
Qed.

Lemma pulses_layout_total (ps : list (Pulse Z)) :
  Forall (fun p => Z.of_nat (List.length (randomness p)) < 2 ^ 38 /\
                   Z.of_nat (List.length (signature p)) < 2 ^ 38) ps ->
  exists body, pulses_layout ps = Ok body.
Proof.
  induction 1 as [|p ps [H1 H2] _ [rest IH]]; [eexists; reflexivity|].
  cbn [pulses_layout]. unfold pulse_layout.
  destruct (compact_total_below _ (conj (Nat2Z.is_nonneg _) H1)) as [c1 E1].
  destruct (compact_total_below _ (conj (Nat2Z.is_nonneg _) H2)) as [c2 E2].
  rewrite E1, E2. cbn [res_bind]. rewrite IH. cbn [res_bind]. eexists. reflexivity.
Qed.

(** X6: with integer rounds, [encode_pulses_payload] returns bytes exactly
    when the block number fits 4 bytes, each round fits 8 bytes, and the
    pulse count and every randomness and signature length are below
    [2^38]; otherwise it raises [OverflowError] and nothing else. *)
Theorem encode_pulses_payload_domain (pl : PulsesPayload Z) :
  ((exists o, encode_pulses_payload pl = Ok o) <-> payload_in_range pl) /\
  (forall e, encode_pulses_payload pl = Err e -> e = OverflowError).
Proof.
  split; [split|].
  - intros [o E]. destruct (encode_pulses_payload_ok _ _ E) as [B [F L]].
    unfold payload_layout in L.
    destruct (encode_compact_u32 (Z.of_nat (List.length (pulses pl)))) as [c|x] eqn:C;
      cbn [res_bind] in L; [|(exfalso; discriminate L)].
    destruct (pulses_layout (pulses pl)) as [b|x] eqn:P; cbn [res_bind] in L; [|(exfalso; discriminate L)].
    split; [exact B|]. split; [exact (compact_ok_range _ _ C)|].
    pose proof (pulses_layout_ranges _ _ P) as G. clear - F G.
    induction F as [|p ps Hp _ IH]; [constructor|].
    inversion G as [|? ? Gp G']; subst. constructor; [tauto|]. exact (IH G').
  - intros (B & C & F).
    assert (Fr : Forall (fun p => 0 <= round p < 2 ^ 64) (pulses pl))
      by (eapply Forall_impl; [|exact F]; cbv beta; tauto).
    assert (Fl : Forall (fun p => Z.of_nat (List.length (randomness p)) < 2 ^ 38 /\
                                  Z.of_nat (List.length (signature p)) < 2 ^ 38) (pulses pl))
      by (eapply Forall_impl; [|exact F]; cbv beta; tauto).
    unfold encode_pulses_payload. rewrite int_to_bytes_in_range by exact B. cbn [res_bind].
    destruct (compact_total_below _ (conj (Nat2Z.is_nonneg _) C)) as [c Ec].
    rewrite Ec. cbn [res_bind]. rewrite encode_pulses_loop_layout by exact Fr.
    destruct (pulses_layout_total _ Fl) as [body Eb]. rewrite Eb. cbn [res_bind].
    eexists. reflexivity.
  - intros e E. unfold encode_pulses_payload in E.
    destruct (int_to_bytes (block_number pl) 4) as [b|x] eqn:Eb; cbn [res_bind] in E;
      [|injection E as <-; exact (int_to_bytes_err _ _ _ Eb)].
    destruct (encode_compact_u32 (Z.of_nat (List.length (pulses pl)))) as [c|x] eqn:Ec;
      cbn [res_bind] in E; [|injection E as <-; exact (compact_err _ _ Ec)].
    destruct (encode_pulses_loop (pulses pl) (b ++ c)) as [l|x] eqn:El; cbn [res_bind] in E;
      [(exfalso; discriminate E)|injection E as <-; exact (encode_pulses_loop_err _ _ _ El)].
Qed.

(** ** Hex strings *)

Lemma hex_pair (b : byte) :
  match hex_value (hex_digit (Z_of_byte b / 16)), hex_value (hex_digit (Z_of_byte b mod 16)) with
  | Some h, Some l => Some (byte_of_Z (16 * h + l))
  | _, _ => None
  end = Some b.
Proof. destruct b; vm_compute; reflexivity. Qed.

Lemma unhexlify_bytes_hex (bs : list byte) : unhexlify_str (bytes_hex bs) = Ok bs.
Proof.
  induction bs as [|b bs IH]; [reflexivity|]. cbn [bytes_hex unhexlify_str].
  pose proof (hex_pair b) as H.
  destruct (hex_value (hex_digit (Z_of_byte b / 16))) as [h|]; [|(exfalso; discriminate H)].
  destruct (hex_value (hex_digit (Z_of_byte b mod 16))) as [l|]; [|(exfalso; discriminate H)].
  apply (f_equal (fun o => match o with Some x => x | None => x00 end)) in H.
  cbv beta iota in H. rewrite IH. cbn [res_bind]. rewrite H. reflexivity.
Qed.

Lemma length_bytes_hex (bs : list byte) :
  String.length (bytes_hex bs) = (2 * List.length bs)%nat.
Proof. induction bs as [|b bs IH]; [reflexivity|]. cbn [bytes_hex String.length List.length]. lia. Qed.

(** X7: the hex strings [submit_new_pulses] puts in the call ([.hex()]
    after ["0x"]) have two digits per byte and [unhexlify] turns them back
    into the pulse's bytes. *)
Theorem pulse_for_call_hex (p : Pulse Json) :
  (forall bs, unhexlify_str (bytes_hex bs) = Ok bs /\
              String.length (bytes_hex bs) = (2 * List.length bs)%nat) /\
  exists xr xs, pulse_for_call p = (round p, ("0x" ++ xr)%string, ("0x" ++ xs)%string) /\
    unhexlify_str xr = Ok (randomness p) /\ unhexlify_str xs = Ok (signature p) /\
    String.length xr = (2 * List.length (randomness p))%nat /\
    String.length xs = (2 * List.length (signature p))%nat.
Proof.
  split; [intros bs; split; [apply unhexlify_bytes_hex|apply length_bytes_hex]|].
  exists (bytes_hex (randomness p)), (bytes_hex (signature p)).
  split; [reflexivity|]. rewrite !unhexlify_bytes_hex, !length_bytes_hex. auto.
Qed.

Lemma unhexlify_str_length_le (n : nat) : forall s bs,
  (String.length s <= n)%nat -> unhexlify_str s = Ok bs ->
  String.length s = (2 * List.length bs)%nat.
Proof.
  induction n as [|n IH]; intros s bs Hs E.
  - destruct s; [injection E as <-; reflexivity|cbn in Hs; lia].
  - destruct s as [|c1 [|c2 s']]; cbn [unhexlify_str] in E.
    + injection E as <-. reflexivity.
    + (exfalso; discriminate E).
    + destruct (hex_value c1), (hex_value c2); try (exfalso; discriminate E).
      destruct (unhexlify_str s') as [rest|x] eqn:Er; cbn [res_bind] in E; [|(exfalso; discriminate E)].
      apply ok_inj in E. subst bs. cbn [String.length] in Hs |- *.
      rewrite (IH s' rest ltac:(lia) Er). cbn [List.length]. lia.
Qed.

Lemma unhexlify_str_length (s : string) (bs : list byte) :
  unhexlify_str s = Ok bs -> String.length s = (2 * List.length bs)%nat.
Proof. apply unhexlify_str_length_le with (n := String.length s). lia. Qed.

(** X8: a response [try_into_pulse] accepts has a ["randomness"] string of
    exactly 64 characters and a ["signature"] string of twice the
    signature's length. *)
Theorem try_into_pulse_field_lengths (resp : Json) (p : Pulse Json) :
  try_into_pulse resp = Ok p ->
  exists rs ss, getitem resp "randomness" = Ok (JStr rs) /\ String.length rs = 64%nat /\
    getitem resp "signature" = Ok (JStr ss) /\
    String.length ss = (2 * List.length (signature p))%nat.
Proof.
  intros E. apply try_into_pulse_ok in E.
  destruct E as (kvs & rs & ss & -> & _ & H2 & H3 & H4 & H5 & H6).
  exists rs, ss. cbn [getitem]. rewrite H2, H4.
  rewrite (unhexlify_str_length _ _ H3), (unhexlify_str_length _ _ H5), H6. auto.
Qed.

Lemma try_into_pulse_field_lengths_witness :
  exists rs ss, getitem echo_body "randomness" = Ok (JStr rs) /\ String.length rs = 64%nat /\
    getitem echo_body "signature" = Ok (JStr ss) /\
    String.length ss = (2 * List.length (signature echo_pulse))%nat.
Proof.
  apply try_into_pulse_field_lengths. vm_compute. reflexivity.
Defined.

(** ** What a cycle submits *)

Lemma submit_part_cases env cb lsr rtf ps s r s' :
  submit_part env cb lsr rtf ps s = (r, s') ->
  let pl := mkPayload cb ps (env_public env) in
  (ps = [] /\ st_trace s' = st_trace s ++ [EvPrint MsgNoNewPulses] /\ st_chain s' = st_chain s) \/
  (exists e, ps <> [] /\ encode_pulses_payload pl = Err e /\
     st_trace s' = st_trace s ++ [EvEncode pl] /\ st_chain s' = st_chain s) \/
  (exists enc tail, ps <> [] /\ encode_pulses_payload pl = Ok enc /\
     let call := mkCall cb (map pulse_for_call ps) ("0x" ++ bytes_hex (env_public env))%string
                   ("0x" ++ bytes_hex (env_sign env enc))%string in
     st_trace s' = st_trace s ++ [EvEncode pl; EvSign enc; EvSubmit call] ++ tail /\
     Forall (fun ev => exists m, ev = EvPrint m) tail /\
     st_chain s' = snd (env_submit env call (st_chain s))).
Proof.
  intros E pl. destruct ps as [|p ps'].
  - left. cbn [submit_part emit] in E. injection E as <- <-. auto.
  - right. unfold submit_part in E. cbv beta iota zeta in E. fold pl in E.
    unfold bind at 1, emit in E.
    apply bind_inv in E as [(enc & s2 & E2 & E)|(e & E2 & ->)].
    + unfold lift in E2. injection E2 as Henc <-.
      right. exists enc.
      unfold bind at 1, keypair_sign in E. unfold bind at 1, submit_extrinsic in E.
      cbn [log st_chain st_trace st_requests st_clock_reads] in E.
      destruct (env_submit env _ (st_chain s)) as [[rc|e] c'] eqn:Es.
      * destruct (is_success rc); unfold emit in E; injection E as _ <-.
        -- eexists. split; [discriminate|]. split; [exact Henc|]. cbv zeta.
           cbn [log st_trace st_chain]. rewrite <- !app_assoc.
           split; [reflexivity|]. split; [repeat constructor; eexists; reflexivity|].
           rewrite Es. reflexivity.
        -- eexists. split; [discriminate|]. split; [exact Henc|]. cbv zeta.
           cbn [log st_trace st_chain]. rewrite <- !app_assoc.
           split; [reflexivity|]. split; [repeat constructor; eexists; reflexivity|].
           rewrite Es. reflexivity.
      * injection E as _ <-. exists []. split; [discriminate|]. split; [exact Henc|].
        cbv zeta. cbn [st_trace st_chain]. rewrite <- !app_assoc.
        split; [reflexivity|]. split; [constructor|]. rewrite Es. reflexivity.
    + left. unfold lift in E2. injection E2 as Henc <-. exists e.
      split; [discriminate|]. split; [exact Henc|]. auto.
Qed.

Lemma submit_new_pulses_cases env cb s r s' :
  submit_new_pulses env cb s = (r, s') ->
  (exists evs, st_trace s' = st_trace s ++ evs /\ Forall before_payload evs /\
     st_chain s' = st_chain s) \/
  (exists lsr rtf ps s2 evs, 1 <= rtf <= 50 /\ st_chain s2 = st_chain s /\
     st_trace s2 = st_trace s ++ evs /\ Forall before_payload evs /\
     submit_part env cb lsr rtf ps s2 = (r, s')).
Proof.
  intros E. unfold submit_new_pulses in E.
  destruct (gate_part_effects env cb) as [Ga Gk].
  apply bind_inv in E as [(d & s1 & Eg & E)|(e & Eg & _)].
  - destruct (Ga _ _ _ Eg) as [evs1 [T1 F1]]. pose proof (Gk _ _ _ Eg) as C1. cbv beta in E.
    destruct d as [[lsr rtf]|].
    + pose proof (gate_part_rounds _ _ _ _ _ _ Eg) as Hr.
      apply bind_inv in E as [(ps & s2 & Ef & E)|(e & Ef & _)].
      * destruct (fetch_rounds_spec _ _ _ _ _ _ Ef) as [C2 (evs2 & T2 & F2 & _)].
        right. exists lsr, rtf, ps, s2, (evs1 ++ evs2). split; [exact Hr|].
        split; [congruence|]. split; [rewrite T2, T1, app_assoc; reflexivity|].
        split; [apply Forall_app; split; [apply pre_round_before_payload, F1|exact F2]|exact E].
      * destruct (fetch_rounds_spec _ _ _ _ _ _ Ef) as [C2 (evs2 & T2 & F2 & _)].
        left. exists (evs1 ++ evs2). split; [rewrite T2, T1, app_assoc; reflexivity|].
        split; [apply Forall_app; split; [apply pre_round_before_payload, F1|exact F2]|congruence].
    + injection E as _ <-. left. exists evs1. split; [exact T1|].
      split; [apply pre_round_before_payload, F1|exact C1].
  - left. destruct (Ga _ _ _ Eg) as [evs1 [T1 F1]]. exists evs1. split; [exact T1|].
    split; [apply pre_round_before_payload, F1|exact (Gk _ _ _ Eg)].
Qed.

Lemma no_submit_before_payload (evs : list event) (call : Call) :
  Forall before_payload evs -> ~ In (EvSubmit call) evs.
Proof. intros F H. rewrite Forall_forall in F. exact (F _ H). Qed.

Lemma no_submit_prints (tail : list event) (call : Call) :
  Forall (fun ev => exists m, ev = EvPrint m) tail -> ~ In (EvSubmit call) tail.
Proof.
  intros F H. rewrite Forall_forall in F. destruct (F _ H) as [m Hm]. discriminate Hm.
Qed.

(** X9: whatever call a cycle submits carries the block number, the pulses
    of the payload it encoded, the public key, and the signature of exactly
    that encoding, which was signed in the same cycle. *)
Theorem submit_new_pulses_submits_signed_payload env cb s r s' :
  submit_new_pulses env cb s = (r, s') ->
  forall evs call, st_trace s' = st_trace s ++ evs -> In (EvSubmit call) evs ->
  exists ps enc,
    In (EvEncode (mkPayload cb ps (env_public env))) evs /\
    encode_pulses_payload (mkPayload cb ps (env_public env)) = Ok enc /\
    In (EvSign enc) evs /\
    call = mkCall cb (map pulse_for_call ps) ("0x" ++ bytes_hex (env_public env))%string
             ("0x" ++ bytes_hex (env_sign env enc))%string.
Proof.
  intros E evs call T Hin.
  destruct (submit_new_pulses_cases _ _ _ _ _ E)
    as [(evs1 & T1 & F1 & _)|(lsr & rtf & ps & s2 & evs1 & _ & _ & T1 & F1 & E2)].
  - rewrite T1 in T. apply app_inv_head in T. subst evs.
    exfalso. exact (no_submit_before_payload _ _ F1 Hin).
  - pose proof (submit_part_cases _ _ _ _ _ _ _ _ E2) as Hc. cbv zeta in Hc.
    destruct Hc as [(_ & T2 & _)|[(e & _ & _ & T2 & _)|(enc & tail & _ & Henc & T2 & F2 & _)]].
    + rewrite T2, T1, <- app_assoc in T. apply app_inv_head in T. subst evs.
      apply in_app_or in Hin as [Hin|Hin];
        [exact (False_ind _ (no_submit_before_payload _ _ F1 Hin))|].
      destruct Hin as [Hin|[]]. discriminate Hin.
    + rewrite T2, T1, <- app_assoc in T. apply app_inv_head in T. subst evs.
      apply in_app_or in Hin as [Hin|Hin];
        [exact (False_ind _ (no_submit_before_payload _ _ F1 Hin))|].
      destruct Hin as [Hin|[]]. discriminate Hin.
    + rewrite T2, T1, <- app_assoc in T. apply app_inv_head in T. subst evs.
      exists ps, enc. split; [apply in_or_app; right; left; reflexivity|].
      split; [exact Henc|]. split; [apply in_or_app; right; right; left; reflexivity|].
      apply in_app_or in Hin as [Hin|Hin];
        [exact (False_ind _ (no_submit_before_payload _ _ F1 Hin))|].
      destruct Hin as [Hin|[Hin|[Hin|Hin]]]; try discriminate Hin.
      * injection Hin as <-. reflexivity.
      * exfalso. exact (no_submit_prints _ _ F2 Hin).
Qed.

Lemma submit_new_pulses_submits_signed_payload_witness :
  exists r s', submit_new_pulses echo_env 0 echo_st = (r, s') /\
  exists ps enc,
    In (EvEncode (mkPayload 0 ps (env_public echo_env))) (st_trace s') /\
    encode_pulses_payload (mkPayload 0 ps (env_public echo_env)) = Ok enc /\
    In (EvSign enc) (st_trace s') /\
    mkCall 0 (map pulse_for_call [echo_pulse; echo_pulse; echo_pulse])
      ("0x" ++ bytes_hex [])%string ("0x" ++ bytes_hex [])%string =
    mkCall 0 (map pulse_for_call ps) ("0x" ++ bytes_hex (env_public echo_env))%string
      ("0x" ++ bytes_hex (env_sign echo_env enc))%string.
Proof.
  assert (Hin : In (EvSubmit (mkCall 0 (map pulse_for_call [echo_pulse; echo_pulse; echo_pulse])
                   ("0x" ++ bytes_hex [])%string ("0x" ++ bytes_hex [])%string))
                (st_trace (snd (submit_new_pulses echo_env 0 echo_st))))
    by (vm_compute; repeat (first [left; reflexivity | right])).
  destruct (submit_new_pulses echo_env 0 echo_st) as [r s'] eqn:E.
  cbn [snd] in Hin. exists r, s'. split; [reflexivity|].
  exact (submit_new_pulses_submits_signed_payload echo_env 0 echo_st r s' E
           (st_trace s') _ (eq_sym (app_nil_l _)) Hin).
Defined.

(** X10: a cycle changes the chain only through its one submission: either
    the chain is as it was and nothing was submitted, or exactly one call was
    submitted and the chain is what [submit_extrinsic] made of it. *)
Theorem submit_new_pulses_chain_effect env cb s r s' :
  submit_new_pulses env cb s = (r, s') ->
  exists evs, st_trace s' = st_trace s ++ evs /\
    ((st_chain s' = st_chain s /\ forall call, ~ In (EvSubmit call) evs) \/
     (exists call pre post, evs = pre ++ EvSubmit call :: post /\
        (forall c, ~ In (EvSubmit c) (pre ++ post)) /\
        st_chain s' = snd (env_submit env call (st_chain s)))).
Proof.
  intros E.
  destruct (submit_new_pulses_cases _ _ _ _ _ E)
    as [(evs1 & T1 & F1 & C1)|(lsr & rtf & ps & s2 & evs1 & _ & C1 & T1 & F1 & E2)].
  - exists evs1. split; [exact T1|]. left. split; [exact C1|].
    intros call. exact (no_submit_before_payload _ _ F1).
  - pose proof (submit_part_cases _ _ _ _ _ _ _ _ E2) as Hc. cbv zeta in Hc.
    destruct Hc as [(_ & T2 & C2)|[(e & _ & _ & T2 & C2)|(enc & tail & _ & Henc & T2 & F2 & C2)]].
    + exists (evs1 ++ [EvPrint MsgNoNewPulses]). split; [rewrite T2, T1, app_assoc; reflexivity|].
      left. split; [congruence|]. intros call Hin.
      apply in_app_or in Hin as [Hin|[Hin|[]]];
        [exact (no_submit_before_payload _ _ F1 Hin)|discriminate Hin].
    + exists (evs1 ++ [EvEncode (mkPayload cb ps (env_public env))]).
      split; [rewrite T2, T1, app_assoc; reflexivity|].
      left. split; [congruence|]. intros call Hin.
      apply in_app_or in Hin as [Hin|[Hin|[]]];
        [exact (no_submit_before_payload _ _ F1 Hin)|discriminate Hin].
    + exists (evs1 ++ [EvEncode (mkPayload cb ps (env_public env)); EvSign enc;
               EvSubmit (mkCall cb (map pulse_for_call ps) ("0x" ++ bytes_hex (env_public env))%string
                 ("0x" ++ bytes_hex (env_sign env enc))%string)] ++ tail).
      split; [rewrite T2, T1, <- !app_assoc; reflexivity|]. right.
      exists (mkCall cb (map pulse_for_call ps) ("0x" ++ bytes_hex (env_public env))%string
                 ("0x" ++ bytes_hex (env_sign env enc))%string),
        (evs1 ++ [EvEncode (mkPayload cb ps (env_public env)); EvSign enc]), tail.
      split; [rewrite <- !app_assoc; reflexivity|]. split.
      * intros c Hin. apply in_app_or in Hin as [Hin|Hin].
        -- apply in_app_or in Hin as [Hin|Hin]; [exact (no_submit_before_payload _ _ F1 Hin)|].
           destruct Hin as [Hin|[Hin|[]]]; discriminate Hin.
        -- exact (no_submit_prints _ _ F2 Hin).
      * rewrite C2, C1. reflexivity.
Qed.

Lemma submit_new_pulses_chain_effect_witness :
  exists r s', submit_new_pulses echo_env 0 echo_st = (r, s') /\
  exists evs, st_trace s' = st_trace echo_st ++ evs /\
    ((st_chain s' = st_chain echo_st /\ forall call, ~ In (EvSubmit call) evs) \/
     (exists call pre post, evs = pre ++ EvSubmit call :: post /\
        (forall c, ~ In (EvSubmit c) (pre ++ post)) /\
        st_chain s' = snd (env_submit echo_env call (st_chain echo_st)))).
Proof.
  destruct (submit_new_pulses echo_env 0 echo_st) as [r s'] eqn:E.
  exists r, s'. split; [reflexivity|].
  exact (submit_new_pulses_chain_effect echo_env 0 echo_st r s' E).
Defined.

(** ** How many requests, and to whom *)

Lemma gets_app (a b : list event) : gets (a ++ b) = (gets a + gets b)%nat.
Proof. unfold gets. rewrite filter_app, length_app. reflexivity. Qed.

Lemma gets_none (evs : list event) : Forall (fun ev => is_get ev = false) evs -> gets evs = 0%nat.
Proof.
  induction 1 as [|ev evs H _ IH]; [reflexivity|].
  unfold gets in *. cbn [filter]. rewrite H. exact IH.
Qed.

Lemma gets_map_get (path : string) (l : list string) :
  gets (map (fun ep => EvHttpGet (ep ++ path)%string) l) = List.length l.
Proof. induction l as [|ep l IH]; [reflexivity|]. unfold gets in *. cbn. rewrite IH. reflexivity. Qed.

Lemma gets_of_adds {A} (m : M A) : adds (fun ev => is_get ev = false) m -> gets_at_most 0 m.
Proof.
  intros H s r s' E. destruct (H _ _ _ E) as [evs [T F]]. exists evs.
  rewrite (gets_none _ F). auto.
Qed.

Lemma gets_bind {A B} (n k t : nat) (m : M A) (f : A -> M B) :
  gets_at_most n m -> (forall a, gets_at_most k (f a)) -> (n + k <= t)%nat ->
  gets_at_most t (bind m f).
Proof.
  intros Hm Hf Ht s r s' E. apply bind_inv in E as [(a & s1 & E1 & E)|(e & E1 & _)].
  - destruct (Hm _ _ _ E1) as [e1 [T1 G1]]. destruct (Hf a _ _ _ E) as [e2 [T2 G2]].
    exists (e1 ++ e2). rewrite T2, T1, app_assoc, gets_app. split; [reflexivity|lia].
  - destruct (Hm _ _ _ E1) as [e1 [T1 G1]]. exists e1. split; [exact T1|lia].
Qed.

Lemma gets_weaken {A} (n t : nat) (m : M A) :
  (n <= t)%nat -> gets_at_most n m -> gets_at_most t m.
Proof.
  intros Ht H s r s' E. destruct (H _ _ _ E) as [evs [T G]]. exists evs. split; [exact T|lia].
Qed.

Lemma gets_no_http {A} (m : M A) : adds (fun ev => is_get ev = false) m -> forall t, gets_at_most t m.
Proof. intros H t. apply (gets_weaken 0); [lia|]. exact (gets_of_adds _ H). Qed.

Lemma try_endpoints_gets env dl path eps :
  gets_at_most (List.length eps) (try_endpoints env dl path eps).
Proof.
  intros s r s' E. apply try_endpoints_spec in E. destruct E as [k [Hk [T _]]].
  eexists. split; [exact T|]. rewrite gets_map_get, length_firstn. lia.
Qed.

Lemma fetch_from_any_endpoint_gets env path : gets_at_most 5 (fetch_from_any_endpoint env path).
Proof.
  unfold fetch_from_any_endpoint, fetch_from_any_endpoint_in.
  apply (gets_bind 0 5); [apply gets_of_adds, adds_time| |lia].
  intros t0. apply try_endpoints_gets.
Qed.

Lemma fetch_drand_latest_gets env : gets_at_most 5 (fetch_drand_latest env).
Proof.
  unfold fetch_drand_latest. apply (gets_bind 0 5); [|intros _; apply fetch_from_any_endpoint_gets|lia].
  apply gets_of_adds, adds_emit. reflexivity.
Qed.

Lemma fetch_drand_by_round_gets env q : gets_at_most 5 (fetch_drand_by_round env q).
Proof.
  unfold fetch_drand_by_round.
  apply (gets_bind 0 5); [|intros _; apply fetch_from_any_endpoint_gets|lia].
  apply gets_of_adds, adds_emit. reflexivity.
Qed.

Lemma gate_part_gets env cb : gets_at_most 5 (gate_part env cb).
Proof.
  unfold gate_part.
  apply (gets_bind 0 5); [apply gets_of_adds, adds_query; reflexivity| |lia]. intros nua.
  destruct (cb <? nua); [apply gets_no_http, adds_ret|].
  apply (gets_bind 0 5); [apply gets_of_adds, adds_query; reflexivity| |lia]. intros lsr.
  apply (gets_bind 5 0); [apply fetch_drand_latest_gets| |lia]. intros resp.
  apply (gets_bind 0 0); [apply gets_of_adds, adds_lift| |lia]. intros p.
  apply (gets_bind 0 0); [apply gets_of_adds, adds_lift| |lia]. intros cr. cbv zeta.
  apply gets_of_adds. destruct (cr <=? _); [|apply adds_ret].
  apply adds_bind; [apply adds_emit; reflexivity|]. intros _. apply adds_ret.
Qed.

Lemma fetch_rounds_gets env rs : forall acc,
  gets_at_most (5 * List.length rs) (fetch_rounds env rs acc).
Proof.
  induction rs as [|q rs IH]; intros acc; cbn [fetch_rounds List.length].
  - apply gets_no_http, adds_ret.
  - apply (gets_bind 5 (5 * List.length rs)); [apply fetch_drand_by_round_gets| |lia].
    intros resp. apply (gets_bind 0 (5 * List.length rs)); [apply gets_of_adds, adds_lift| |lia].
    intros p. apply IH.
Qed.

Lemma submit_part_no_http env cb lsr rtf ps :
  adds (fun ev => is_get ev = false) (submit_part env cb lsr rtf ps).
Proof.
  destruct ps as [|p ps']; [apply adds_emit; reflexivity|].
  unfold submit_part. cbv beta iota zeta.
  apply adds_bind; [apply adds_emit; reflexivity|]. intros _.
  apply adds_bind; [apply adds_lift|]. intros enc.
  apply adds_bind; [apply adds_sign; reflexivity|]. intros sig.
  apply adds_bind; [apply adds_submit; reflexivity|]. intros rc.
  destruct (is_success rc); apply adds_emit; reflexivity.
Qed.

Lemma length_py_range (a b : Z) : List.length (py_range a b) = Z.to_nat (b - a).
Proof. unfold py_range. rewrite length_map, length_seq. reflexivity. Qed.

(** X11: [fetch_from_any_endpoint] makes at most 5 HTTP requests (one per
    endpoint), and a whole cycle of [submit_new_pulses] at most 255 (5 for
    the latest pulse, 5 for each of at most 50 rounds, none to submit). *)
Theorem http_requests_bounded (env : Env) :
  (forall path, gets_at_most 5 (fetch_from_any_endpoint env path)) /\
  (forall cb, gets_at_most 255 (submit_new_pulses env cb)).
Proof.
  split; [apply fetch_from_any_endpoint_gets|]. intros cb s r s' E.
  unfold submit_new_pulses in E.
  apply bind_inv in E as [(d & s1 & Eg & E)|(e & Eg & _)].
  - destruct (gate_part_gets env cb _ _ _ Eg) as [evs1 [T1 G1]]. cbv beta in E.
    destruct d as [[lsr rtf]|].
    + pose proof (gate_part_rounds _ _ _ _ _ _ Eg) as Hr.
      pose proof (fetch_rounds_gets env (py_range (lsr + 1) (lsr + 1 + rtf)) []) as Hf.
      rewrite length_py_range in Hf.
      assert (H50 : (Z.to_nat (lsr + 1 + rtf - (lsr + 1)) <= 50)%nat) by lia.
      apply bind_inv in E as [(ps & s2 & Ef & E)|(e & Ef & _)].
      * destruct (Hf _ _ _ Ef) as [evs2 [T2 G2]].
        destruct (gets_of_adds _ (submit_part_no_http env cb lsr rtf ps) _ _ _ E)
          as [evs3 [T3 G3]].
        exists (evs1 ++ evs2 ++ evs3). rewrite T3, T2, T1, !app_assoc, !gets_app.
        split; [reflexivity|lia].
      * destruct (Hf _ _ _ Ef) as [evs2 [T2 G2]].
        exists (evs1 ++ evs2). rewrite T2, T1, app_assoc, gets_app. split; [reflexivity|lia].
    + injection E as _ <-. exists evs1. split; [exact T1|lia].
  - destruct (gate_part_gets env cb _ _ _ Eg) as [evs1 [T1 G1]].
    exists evs1. split; [exact T1|lia].
Qed.

Lemma try_endpoints_hosts env dl path eps :
  adds (get_in eps path) (try_endpoints env dl path eps).
Proof.
  induction eps as [|ep eps IH]; cbn [try_endpoints]; [auto with effects|].
  assert (IH' : adds (get_in (ep :: eps) path) (try_endpoints env dl path eps)).
  { eapply adds_mono; [|exact IH]. intros [] H; cbn [get_in] in H |- *; try exact I.
    destruct H as [e [Hi He]]. exists e. split; [right; exact Hi|exact He]. }
  apply adds_bind; [apply adds_get; exists ep; split; [left; reflexivity|reflexivity]|].
  intros [|code body].
  - apply adds_bind; auto with effects. intros t. destruct (dl <? t); auto with effects.
  - destruct (code =? 200); auto with effects.
    apply adds_bind; auto with effects. intros t. destruct (dl <? t); auto with effects.
Qed.

Lemma fetch_from_any_endpoint_hosts env path :
  adds (get_in DRAND_ENDPOINTS path) (fetch_from_any_endpoint env path).
Proof.
  unfold fetch_from_any_endpoint, fetch_from_any_endpoint_in.
  apply adds_bind; [apply adds_time|]. intros t0. apply try_endpoints_hosts.
Qed.

Lemma fetch_drand_latest_hosts env : adds drand_get (fetch_drand_latest env).
Proof.
  unfold fetch_drand_latest. apply adds_bind; [apply adds_emit; exact I|]. intros _.
  eapply adds_mono; [|apply fetch_from_any_endpoint_hosts].
  intros [] H; cbn [get_in drand_get] in H |- *; try exact I.
  destruct H as [ep [Hi ->]]. exists ep, "latest"%string. split; [exact Hi|].
  split; [reflexivity|left; reflexivity].
Qed.

Lemma fetch_drand_by_round_hosts env q : adds drand_get (fetch_drand_by_round env q).
Proof.
  unfold fetch_drand_by_round. apply adds_bind; [apply adds_emit; exact I|]. intros _.
  eapply adds_mono; [|apply fetch_from_any_endpoint_hosts].
  intros [] H; cbn [get_in drand_get] in H |- *; try exact I.
  destruct H as [ep [Hi ->]]. exists ep, (py_str q). split; [exact Hi|].
  split; [reflexivity|right; exists q; reflexivity].
Qed.

Lemma gate_part_hosts env cb : adds drand_get (gate_part env cb).
Proof.
  unfold gate_part.
  apply adds_bind; [apply adds_query; exact I|]. intros nua.
  destruct (cb <? nua); [auto with effects|].
  apply adds_bind; [apply adds_query; exact I|]. intros lsr.
  apply adds_bind; [apply fetch_drand_latest_hosts|]. intros resp.
  apply adds_bind; auto with effects. intros p.
  apply adds_bind; auto with effects. intros cr. cbv zeta.
  destruct (cr <=? _); [|auto with effects].
  apply adds_bind; [apply adds_emit; exact I|auto with effects].
Qed.

Lemma fetch_rounds_hosts env rs : forall acc, adds drand_get (fetch_rounds env rs acc).
Proof.
  induction rs as [|q rs IH]; intros acc; cbn [fetch_rounds]; [auto with effects|].
  apply adds_bind; [apply fetch_drand_by_round_hosts|]. intros resp.
  apply adds_bind; auto with effects.
Qed.

Lemma submit_new_pulses_hosts env cb : adds drand_get (submit_new_pulses env cb).
Proof.
  unfold submit_new_pulses. apply adds_bind; [apply gate_part_hosts|].
  intros [[lsr rtf]|]; [|auto with effects].
  apply adds_bind; [apply fetch_rounds_hosts|]. intros ps.
  eapply adds_mono; [|apply submit_part_no_http]. intros [] H; cbn in H |- *; try exact I.
  discriminate H.
Qed.

(** X12: every HTTP request of the subscription goes to one of the five
    drand endpoints, under this chain's hash, for ["latest"] or for a
    decimal round number; [fetch_from_any_endpoint] only ever asks the
    endpoint list for the path it was given. *)
Theorem http_requests_hosts (env : Env) :
  (forall path, adds (get_in DRAND_ENDPOINTS path) (fetch_from_any_endpoint env path)) /\
  (forall blocks, adds drand_get (block_subscription env blocks)).
Proof.
  split; [apply fetch_from_any_endpoint_hosts|].
  induction blocks as [|b bs IH]; cbn [block_subscription]; [auto with effects|].
  apply adds_bind; [apply submit_new_pulses_hosts|]. intros _. exact IH.
Qed.

(** ** Round paths *)

Lemma uint_to_string_inj (u v : Decimal.uint) : uint_to_string u = uint_to_string v -> u = v.
Proof.
  revert v; induction u; intros [] H; cbn [uint_to_string] in H;
    try (exfalso; discriminate H); try reflexivity;
    injection H as H; f_equal; apply IHu; exact H.
Qed.

Lemma uint_to_string_not_dash (u : Decimal.uint) (s : string) :
  uint_to_string u <> String "-" s.
Proof. destruct u; cbn [uint_to_string]; intros H; discriminate H. Qed.

Lemma py_str_inj (a b : Z) : py_str a = py_str b -> a = b.
Proof.
  unfold py_str. intros H.
  rewrite <- (DecimalZ.of_to a), <- (DecimalZ.of_to b).
  destruct (Z.to_int a) as [u|u]; destruct (Z.to_int b) as [v|v].
  - apply uint_to_string_inj in H. subst. reflexivity.
  - exfalso. exact (uint_to_string_not_dash _ _ H).
  - exfalso. exact (uint_to_string_not_dash _ _ (eq_sym H)).
  - injection H as H. apply uint_to_string_inj in H. subst. reflexivity.
Qed.

Lemma string_app_cancel_l (p a b : string) : (p ++ a)%string = (p ++ b)%string -> a = b.
Proof.
  induction p as [|c p IH]; cbn [String.append]; intros H; [exact H|].
  injection H as H. exact (IH H).
Qed.

(** X13: [str(round_num)] is injective on integers, so distinct rounds are
    asked for under distinct paths. *)
Theorem round_path_injective :
  (forall a b, py_str a = py_str b -> a = b) /\
  (forall a b, round_path a = round_path b -> a = b).
Proof.
  split; [exact py_str_inj|]. intros a b H. unfold round_path in H.
  apply string_app_cancel_l, string_app_cancel_l, string_app_cancel_l in H.
  exact (py_str_inj _ _ H).
Qed.

(** ** The first cycle *)

(** X14: on a chain that has stored no round yet, a cycle that passes the
    block threshold and reads the latest round [latest] asks the beacon for
    round [latest] alone. *)
Theorem submit_new_pulses_first_run (env : Env) (cb : Z) (s : St) (resp : Json) (s3 : St)
    (p : Pulse Json) (latest : Z) (r : Res unit) (s' : St) :
  match storage (st_chain s) LastStoredRound with Some v => v | None => 0 end = 0 ->
  match storage (st_chain s) NextUnsignedAt with Some v => v | None => 0 end <= cb ->
  fetch_drand_latest env (log (log s (EvQuery NextUnsignedAt)) (EvQuery LastStoredRound)) =
    (Ok resp, s3) ->
  try_into_pulse resp = Ok p -> py_int (round p) = Ok latest ->
  submit_new_pulses env cb s = (r, s') ->
  exists evs, st_trace s' = st_trace s3 ++ evs /\ round_requests evs = [latest].
Proof.
  intros H0 Hn Hf Ht Hr E.
  pose proof (gate_part_above env cb s resp s3 p latest Hn Hf Ht Hr) as G.
  cbv zeta in G. rewrite H0, Z.eqb_refl in G.
  rewrite (proj2 (Z.leb_gt latest (latest - 1)) ltac:(lia)) in G.
  replace (Z.min (latest - (latest - 1)) MAX_PULSES_TO_FETCH) with 1 in G
    by (unfold MAX_PULSES_TO_FETCH; lia).
  pose proof (submit_new_pulses_after_gate _ _ _ _ _ _ _ _ G E) as A. cbv zeta in A.
  destruct A as [evs [T Hrr]]. exists evs. split; [exact T|].
  assert (Hp : py_range (latest - 1 + 1) (latest - 1 + 1 + 1) = [latest]).
  { unfold py_range. replace (latest - 1 + 1 + 1 - (latest - 1 + 1)) with 1 by lia.
    change (Z.to_nat 1) with 1%nat. cbn [seq map]. f_equal. lia. }
  rewrite Hp in Hrr.
  destruct Hrr as [Hrr|(e & k & _ & Hk & Hrr)]; [exact Hrr|].
  cbn [List.length] in Hk. replace k with 0%nat in Hrr by lia. exact Hrr.
Qed.

Lemma submit_new_pulses_first_run_witness :
  exists s3 r s', fetch_drand_latest echo_env
      (log (log empty_st (EvQuery NextUnsignedAt)) (EvQuery LastStoredRound)) = (Ok echo_body, s3) /\
    submit_new_pulses echo_env 0 empty_st = (r, s') /\
    exists evs, st_trace s' = st_trace s3 ++ evs /\ round_requests evs = [12].
Proof.
  assert (R3 : fst (fetch_drand_latest echo_env
      (log (log empty_st (EvQuery NextUnsignedAt)) (EvQuery LastStoredRound))) = Ok echo_body)
    by (vm_compute; reflexivity).
  destruct (fetch_drand_latest echo_env
      (log (log empty_st (EvQuery NextUnsignedAt)) (EvQuery LastStoredRound))) as [r3 s3] eqn:Ef.
  cbn [fst] in R3. subst r3.
  destruct (submit_new_pulses echo_env 0 empty_st) as [r s'] eqn:E.
  exists s3, r, s'. split; [reflexivity|]. split; [reflexivity|].
  exact (submit_new_pulses_first_run echo_env 0 empty_st echo_body s3 echo_pulse 12 r s'
           eq_refl (Z.le_refl 0) Ef ltac:(vm_compute; reflexivity) eq_refl E).
Defined.
